(** * framerate: the slideshow playback engine of [src/pages/Practice.tsx]

    A shallow embedding of the [Practice] component and of its two helper
    functions, [generateRandomOrder] and [resizeWindow].

    - JavaScript numbers that hold array indices and counters are [nat];
      the places where the source subtracts below zero or divides are
      computed in [Z] or [Q], as written in the source.  The pixel
      arithmetic of [resizeWindow] is done in binary64 floats.
    - [Math.random()] is a stream of rationals in the half-open interval
      from 0 to 1, read through a cursor that every call advances.
    - A [while] loop that can spin for ever takes fuel.
    - React state is a record; an event handler reads the values its closure
      captured at render time and writes through the state setters.
    - The browser (object URLs, interval timers, key listeners) is a record
      that the effects of the component read and update.
    - Renders are those of a production build: one render after each
      handler, the effect and its cleanup run once per change of
      [orderIndex] or [pause].  The two smaller effects of the component,
      the fit of the window and the [resize] listener, touch neither the
      state nor the resources above and have no part in the session. *)

From Stdlib Require Import QArith Qround ZArith Lia.
From Stdlib Require Import Floats.PrimFloat.
From stdpp Require Import base decidable option list strings.

Local Open Scope nat_scope.

(** ** Results of running JavaScript *)

(** A call returns a value, propagates an exception, or is still running
    when the fuel is spent. *)
Inductive outcome (A : Type) : Type :=
| Returned (a : A)
| Thrown (e : string)
| OutOfFuel.
Arguments Returned {A} a.
Arguments Thrown {A} e.
Arguments OutOfFuel {A}.

(** Sequencing: the first call that does not return ends the run. *)
#[global] Instance outcome_bind : MBind outcome := λ A B k m,
  match m with
  | Returned a => k a
  | Thrown e => Thrown e
  | OutOfFuel => OutOfFuel
  end.

#[global] Instance outcome_ret : MRet outcome := λ A a, Returned a.

(** ** The random source *)

(** [random t] is the value of the [t]-th call of [Math.random()]. *)
Definition random_source := nat → Q.

(** The contract of [Math.random()]: at least 0, strictly below 1. *)
Definition in_unit_interval (random : random_source) : Prop :=
  ∀ t, (0 <= random t)%Q ∧ (random t < 1)%Q.

(** [Math.floor(Math.random() * n)], reading draw number [t].  The product is
    taken exactly; the double product of the source rounds to nearest and
    for [n] below 2^53 stays below [n] as well, so both lie in the same
    range. *)
Definition random_floor (random : random_source) (t n : nat) : nat :=
  Z.to_nat (Qfloor (random t * inject_Z (Z.of_nat n))).

(** ** [generateRandomOrder] *)

Definition MAX_RANDOM_LEN : nat := 50.

(** [[order[i], order[j]] = [order[j], order[i]]]: both reads happen before
    the two writes.  An index outside the array cannot occur in
    [generateRandomOrder] (see [shuffle_swap_in_range]); the array is then
    left as it is, where JavaScript would grow it. *)
Definition swap (order : list nat) (i j : nat) : list nat :=
  match order !! i, order !! j with
  | Some a, Some b => <[j:=a]> (<[i:=b]> order)
  | _, _ => order
  end.

(** [for (let i = ...; i < numIndexes; i++)] with [n] iterations to go. *)
Fixpoint shuffle_loop (random : random_source) (len n i t : nat)
    (order : list nat) : list nat * nat :=
  match n with
  | 0 => (order, t)
  | S n' =>
      let j := i + random_floor random t (len - i) in
      shuffle_loop random len n' (S i) (S t) (swap order i j)
  end.

(** [Set.prototype.add]: a [Set] keeps its elements in insertion order. *)
Definition set_add (x : nat) (s : list nat) : list nat :=
  if decide (x ∈ s) then s else s ++ [x].

(** [while (result.size < numIndexes) result.add(...)]. *)
Fixpoint sample_loop (fuel : nat) (random : random_source)
    (len numIndexes t : nat) (result : list nat) : outcome (list nat * nat) :=
  if length result <? numIndexes then
    match fuel with
    | 0 => OutOfFuel
    | S fuel' =>
        sample_loop fuel' random len numIndexes (S t)
          (set_add (random_floor random t len) result)
    end
  else Returned (result, t).

(** [numIndexes > length / 2], a comparison of two JavaScript numbers. *)
Definition gt_half (numIndexes len : nat) : bool :=
  negb (Qle_bool (inject_Z (Z.of_nat numIndexes))
                 (inject_Z (Z.of_nat len) / 2)).

(** The function returns the array and the cursor of the random source. *)
Definition generateRandomOrder (fuel : nat) (random : random_source)
    (t len : nat) : outcome (list nat * nat) :=
  let numIndexes := Nat.min MAX_RANDOM_LEN len in
  if gt_half numIndexes len then
    let order := seq 0 len in
    let '(order, t') := shuffle_loop random len numIndexes 0 t order in
    Returned (take numIndexes order, t')
  else
    sample_loop fuel random len numIndexes t [].

(** The [Set] of the sparse branch after [n] draws, whatever its size. *)
Fixpoint draws (random : random_source) (len t n : nat)
    (result : list nat) : list nat :=
  match n with
  | 0 => result
  | S n' => draws random len (S t) n' (set_add (random_floor random t len) result)
  end.

(** The random source lets [generateRandomOrder] finish within [n] draws:
    always in the shuffling branch, and in the sampling branch once [n]
    draws have hit enough distinct indices. *)
Definition enough_draws (random : random_source) (t len n : nat) : Prop :=
  gt_half (Nat.min MAX_RANDOM_LEN len) len = true
  ∨ Nat.min MAX_RANDOM_LEN len ≤ length (draws random len t n []).

(** ** The browser *)

(** A [File] of the folder scan; the engine only passes it on. *)
Record File := { file_name : string; file_size : nat }.

(** Object URLs, interval timers and function objects are told apart by the
    number they were created with. *)
Definition ident := nat.

(** ** React state of [Practice] *)

Record State := {
  imageOrder : list nat;
  orderIndex : nat;
  currentImageUrl : ident;
  showOverlay : bool;
  pause : bool;
  mute : bool;
  counter : nat;
}.

Definition setImageOrder (v : list nat) (st : State) : State :=
  {| imageOrder := v; orderIndex := orderIndex st;
     currentImageUrl := currentImageUrl st; showOverlay := showOverlay st;
     pause := pause st; mute := mute st; counter := counter st |}.
Definition setOrderIndex (v : nat) (st : State) : State :=
  {| imageOrder := imageOrder st; orderIndex := v;
     currentImageUrl := currentImageUrl st; showOverlay := showOverlay st;
     pause := pause st; mute := mute st; counter := counter st |}.
Definition setCurrentImageUrl (v : ident) (st : State) : State :=
  {| imageOrder := imageOrder st; orderIndex := orderIndex st;
     currentImageUrl := v; showOverlay := showOverlay st;
     pause := pause st; mute := mute st; counter := counter st |}.
Definition setShowOverlay (v : bool) (st : State) : State :=
  {| imageOrder := imageOrder st; orderIndex := orderIndex st;
     currentImageUrl := currentImageUrl st; showOverlay := v;
     pause := pause st; mute := mute st; counter := counter st |}.
Definition setPause (v : bool) (st : State) : State :=
  {| imageOrder := imageOrder st; orderIndex := orderIndex st;
     currentImageUrl := currentImageUrl st; showOverlay := showOverlay st;
     pause := v; mute := mute st; counter := counter st |}.
Definition setMute (v : bool) (st : State) : State :=
  {| imageOrder := imageOrder st; orderIndex := orderIndex st;
     currentImageUrl := currentImageUrl st; showOverlay := showOverlay st;
     pause := pause st; mute := v; counter := counter st |}.
Definition setCounter (v : nat) (st : State) : State :=
  {| imageOrder := imageOrder st; orderIndex := orderIndex st;
     currentImageUrl := currentImageUrl st; showOverlay := showOverlay st;
     pause := pause st; mute := mute st; counter := v |}.

(** The part of the page that [Practice] touches.  A timer callback and a
    key listener are closures: each is stored with the state of the render
    that created it, which is what its [next], [prev] and [pause] read. *)
Record Browser := {
  fresh : ident;                     (* the next identifier to hand out *)
  urls_live : list ident;            (* created and not revoked, newest first *)
  urls_revoked : list ident;         (* every revokeObjectURL call, newest first *)
  timers : list (ident * State);     (* running setInterval callbacks *)
  keydown : list (ident * State);    (* registered keydown listeners *)
  random_calls : nat;                (* calls of Math.random() so far *)
}.

Definition new_page (t0 : nat) : Browser :=
  {| fresh := 0; urls_live := []; urls_revoked := [];
     timers := []; keydown := []; random_calls := t0 |}.

(** [URL.createObjectURL(file)]; [undefined] is not a Blob. *)
Definition createObjectURL (file : option File) (b : Browser)
    : outcome (ident * Browser) :=
  match file with
  | None => Thrown "TypeError"
  | Some _ =>
      Returned (fresh b,
        {| fresh := S (fresh b); urls_live := fresh b :: urls_live b;
           urls_revoked := urls_revoked b; timers := timers b;
           keydown := keydown b; random_calls := random_calls b |})
  end.

Definition revokeObjectURL (u : ident) (b : Browser) : Browser :=
  {| fresh := fresh b;
     urls_live := filter (λ v, v ≠ u) (urls_live b);
     urls_revoked := u :: urls_revoked b; timers := timers b;
     keydown := keydown b; random_calls := random_calls b |}.

Definition setInterval (callback : State) (b : Browser) : ident * Browser :=
  (fresh b,
   {| fresh := S (fresh b); urls_live := urls_live b;
      urls_revoked := urls_revoked b;
      timers := timers b ++ [(fresh b, callback)];
      keydown := keydown b; random_calls := random_calls b |}).

Definition clearInterval (id : ident) (b : Browser) : Browser :=
  {| fresh := fresh b; urls_live := urls_live b;
     urls_revoked := urls_revoked b;
     timers := filter (λ x, x.1 ≠ id) (timers b);
     keydown := keydown b; random_calls := random_calls b |}.

(** [window.addEventListener("keydown", f)] for a new function object. *)
Definition addEventListener (listener : State) (b : Browser) : ident * Browser :=
  (fresh b,
   {| fresh := S (fresh b); urls_live := urls_live b;
      urls_revoked := urls_revoked b; timers := timers b;
      keydown := keydown b ++ [(fresh b, listener)];
      random_calls := random_calls b |}).

Definition removeEventListener (id : ident) (b : Browser) : Browser :=
  {| fresh := fresh b; urls_live := urls_live b;
     urls_revoked := urls_revoked b; timers := timers b;
     keydown := filter (λ x, x.1 ≠ id) (keydown b);
     random_calls := random_calls b |}.

Definition set_random_calls (t : nat) (b : Browser) : Browser :=
  {| fresh := fresh b; urls_live := urls_live b;
     urls_revoked := urls_revoked b; timers := timers b;
     keydown := keydown b; random_calls := t |}.

(** ** The component *)

(** [timeMS] is [fixedTimeToMS(fixedTime)]; the declaration of
    [fixedTimeToMS] is not among the sources, so its value is a parameter.
    [buttons_bubble] says whether a click on a [SlideshowButton], which is
    not among the sources either, also reaches the [onClick] of the
    surrounding [div]. *)
Record PracticeProps := {
  timeMS : Q;
  imageFiles : list File;
  buttons_bubble : bool;
}.

Definition INTERVAL_MS : Z := 10.

Definition TICKS_PER_SLIDE (props : PracticeProps) : Q :=
  (timeMS props / inject_Z INTERVAL_MS)%Q.

(** What the effect of lines 77 to 119 left behind for its cleanup. *)
Record Mounted := {
  state : State;
  eff_url : ident;                 (* [url] *)
  eff_timer : option ident;        (* [timer] *)
  eff_listener : ident;            (* [handleKeyPress] *)
  eff_deps : nat * bool;           (* [[orderIndex, pause]] *)
}.

Record World := {
  browser : Browser;
  practice : option Mounted;       (* [None] once unmounted *)
}.

(** A render that leaves the effect alone. *)
Definition rendered (st : State) (m : Mounted) : Mounted :=
  {| state := st; eff_url := eff_url m; eff_timer := eff_timer m;
     eff_listener := eff_listener m; eff_deps := eff_deps m |}.

Inductive button := ButtonNext | ButtonPrev | ButtonPause | ButtonMute | ButtonExit.

Inductive event :=
| Tick                        (* 10 ms have passed on the interval timers *)
| KeyDown (key : string)
| ClickButton (b : button)    (* on a button of the overlay *)
| ClickImage                  (* on the surrounding [div] *)
| Unmount.                    (* the parent stops rendering [Practice] *)

Section Practice.
Variable random : random_source.
Variable props : PracticeProps.

(** [next], as a closure over the render [cl], writing to [st]. *)
Definition next (fuel : nat) (cl st : State) (t : nat) : outcome (State * nat) :=
  if (Z.of_nat (orderIndex cl) =? Z.of_nat (length (imageOrder cl)) - 1)%Z then
    (* the updater receives the pending [imageOrder] *)
    '(chunk, t') ← generateRandomOrder fuel random t (length (imageFiles props));
    let st := setImageOrder (imageOrder st ++ chunk) st in
    let st := setOrderIndex (orderIndex cl + 1) st in
    mret (setCounter 0 st, t')
  else
    let st := setOrderIndex (orderIndex cl + 1) st in
    mret (setCounter 0 st, t).

Definition prev (cl st : State) : State :=
  if orderIndex cl =? 0 then st
  else setCounter 0 (setOrderIndex (orderIndex cl - 1) st).

(** The callback of [setInterval]: [setCounter] with an updater. *)
Definition on_interval (fuel : nat) (cl st : State) (t : nat)
    : outcome (State * nat) :=
  if Qle_bool (TICKS_PER_SLIDE props) (inject_Z (Z.of_nat (counter st))) then
    '(st, t') ← next fuel cl st t;
    mret (setCounter 0 st, t')
  else
    mret (setCounter (counter st + 1) st, t).

Definition handleKeyPress (key : string) (fuel : nat) (cl st : State) (t : nat)
    : outcome (State * nat) :=
  '(st, t) ← (if decide (key = "ArrowRight") then next fuel cl st t
              else mret (st, t));
  let st := if decide (key = "ArrowLeft") then prev cl st else st in
  let st := if decide (key = " ") then setPause (negb (pause cl)) st else st in
  mret (st, t).

(** The handlers of the overlay and of the surrounding [div]. *)
Definition onClick (b : button) (fuel : nat) (cl st : State) (t : nat)
    : outcome (State * nat) :=
  '(st, t) ← match b with
             | ButtonNext => next fuel cl st t
             | ButtonPrev => mret (prev cl st, t)
             | ButtonPause => mret (setPause (negb (pause cl)) st, t)
             | ButtonMute => mret (setMute (negb (mute cl)) st, t)
             | ButtonExit => mret (st, t)
             end;
  let st := if buttons_bubble props
            then setShowOverlay (negb (showOverlay cl)) st else st in
  mret (st, t).

Definition onClickImage (fuel : nat) (cl st : State) (t : nat)
    : outcome (State * nat) :=
  mret (setShowOverlay (negb (showOverlay cl)) st, t).

(** The body of the effect, run after the render with state [st]. *)
Definition effect (st : State) (b : Browser) : outcome World :=
  let fileIndex := imageOrder st !! orderIndex st in
  let currentFile := fileIndex ≫= λ i, imageFiles props !! i in
  '(url, b) ← createObjectURL currentFile b;
  let '(timer, b) :=
    if negb (pause st)
    then let '(id, b) := setInterval st b in (Some id, b)
    else (None, b) in
  let '(listener, b) := addEventListener st b in
  mret {| browser := b;
          practice := Some {| state := setCurrentImageUrl url st;
                              eff_url := url; eff_timer := timer;
                              eff_listener := listener;
                              eff_deps := (orderIndex st, pause st) |} |}.

(** The function the effect returns. *)
Definition cleanup (m : Mounted) (b : Browser) : Browser :=
  let b := revokeObjectURL (eff_url m) b in
  let b := match eff_timer m with
           | Some timer => clearInterval timer b
           | None => b
           end in
  removeEventListener (eff_listener m) b.

(** The first render and its effects. *)
Definition mount (fuel : nat) (b : Browser) : outcome World :=
  '(order, t) ← generateRandomOrder fuel random (random_calls b)
                  (length (imageFiles props));
  let b := set_random_calls t b in
  let orderIndex := 0 in
  '(url, b) ← createObjectURL (imageFiles props !! orderIndex) b;
  effect {| imageOrder := order; orderIndex := orderIndex;
            currentImageUrl := url; showOverlay := false;
            pause := false; mute := false; counter := 0 |} b.

(** A render with the new state [st]: the effect is run again, after the
    cleanup of its last run, when [orderIndex] or [pause] changed. *)
Definition commit (m : Mounted) (st : State) (b : Browser) : outcome World :=
  if decide ((orderIndex st, pause st) = eff_deps m) then
    mret {| browser := b; practice := Some (rendered st m) |}
  else effect st (cleanup m b).

Definition handler := nat → State → State → nat → outcome (State * nat).

(** One handler call and the render that follows it. *)
Definition run_handler (h : handler) (fuel : nat) (cl : State) (w : World)
    : outcome World :=
  match practice w with
  | None => mret w
  | Some m =>
      '(st, t) ← h fuel cl (state m) (random_calls (browser w));
      commit m st (set_random_calls t (browser w))
  end.

(** The callbacks that were registered when the event arrived are called
    in turn, unless an earlier one has unregistered them. *)
Fixpoint fire (h : handler) (registered : Browser → list (ident * State))
    (fuel : nat) (pending : list (ident * State)) (w : World) : outcome World :=
  match pending with
  | [] => mret w
  | (id, cl) :: pending =>
      w ← (if decide (id ∈ (registered (browser w)).*1)
           then run_handler h fuel cl w else mret w);
      fire h registered fuel pending w
  end.

Definition unmount (w : World) : World :=
  match practice w with
  | None => w
  | Some m => {| browser := cleanup m (browser w); practice := None |}
  end.

Definition step (fuel : nat) (w : World) (e : event) : outcome World :=
  match e with
  | Tick => fire on_interval timers fuel (timers (browser w)) w
  | KeyDown key => fire (handleKeyPress key) keydown fuel (keydown (browser w)) w
  | ClickButton b =>
      match practice w with
      | None => mret w
      | Some m =>
          if showOverlay (state m) then
            match b with
            | ButtonExit => mret (unmount w)     (* [setRunApp(false)] *)
            | _ => run_handler (onClick b) fuel (state m) w
            end
          else mret w
      end
  | ClickImage =>
      match practice w with
      | None => mret w
      | Some m => run_handler onClickImage fuel (state m) w
      end
  | Unmount => mret (unmount w)
  end.

Fixpoint run (fuel : nat) (w : World) (events : list event) : outcome World :=
  match events with
  | [] => mret w
  | e :: events => w ← step fuel w e; run fuel w events
  end.

(** The worlds a session can be in. *)
Inductive reachable : World → Prop :=
| reachable_mount fuel t0 w :
    mount fuel (new_page t0) = Returned w → reachable w
| reachable_step fuel w e w' :
    reachable w → step fuel w e = Returned w' → reachable w'.

End Practice.

(** ** Observations *)

(** The order is used up: [orderIndex === imageOrder.length - 1]. *)
Definition exhausted (st : State) : Prop :=
  (Z.of_nat (orderIndex st) = Z.of_nat (length (imageOrder st)) - 1)%Z.

(** How often [URL.revokeObjectURL] was called on [u]. *)
Definition times_revoked (u : ident) (b : Browser) : nat :=
  length (filter (λ v, v = u) (urls_revoked b)).

(** Position and tick counter at the end of a run. *)
Definition position_and_ticks (o : outcome World) : option (nat * nat) :=
  match o with
  | Returned w => (λ m, (orderIndex (state m), counter (state m))) <$> practice w
  | _ => None
  end.

(** The object URLs that are live at the end of a run. *)
Definition live_urls (o : outcome World) : option (list ident) :=
  match o with
  | Returned w => Some (urls_live (browser w))
  | _ => None
  end.

(** ** Invariants of a session *)

(** The closures only read [imageOrder], [orderIndex] and [pause]. *)
Definition agrees (cl st : State) : Prop :=
  imageOrder cl = imageOrder st ∧ orderIndex cl = orderIndex st
  ∧ pause cl = pause st.

(** The cursor points into the order, and the order into the files. *)
Definition in_range (props : PracticeProps) (st : State) : Prop :=
  orderIndex st < length (imageOrder st)
  ∧ Forall (λ i, i < length (imageFiles props)) (imageOrder st).

(** What holds between two events.  While mounted: one key listener and,
    unless paused, one timer, both closed over a render that agrees with
    the state; the URL on display is the one of the last effect run; and
    next to it the URL created by the initial state is still live. *)
Definition wf (props : PracticeProps) (w : World) : Prop :=
  let b := browser w in
  Forall (λ u, u < fresh b) (urls_revoked b) ∧
  match practice w with
  | None => timers b = [] ∧ keydown b = []
  | Some m =>
      let st := state m in
      in_range props st ∧
      eff_deps m = (orderIndex st, pause st) ∧
      currentImageUrl st = eff_url m ∧
      (eff_url m ∉ urls_revoked b) ∧
      eff_url m < fresh b ∧
      (∃ url0, urls_live b = [eff_url m; url0] ∧ url0 < eff_url m
               ∧ (url0 ∉ urls_revoked b)) ∧
      ∃ cl, agrees cl st ∧
        keydown b = [(eff_listener m, cl)] ∧
        match eff_timer m with
        | Some timer => pause st = false ∧ timers b = [(timer, cl)]
        | None => pause st = true ∧ timers b = []
        end
  end.

(** What a handler may do to the state for the next render to be sound:
    it keeps the cursor inside the order, leaves the URL to the effect, and
    changes the order only together with the cursor. *)
Definition preserves (props : PracticeProps) (st st' : State) : Prop :=
  in_range props st'
  ∧ currentImageUrl st' = currentImageUrl st
  ∧ (orderIndex st' = orderIndex st → imageOrder st' = imageOrder st).

(** ** [resizeWindow] *)

(** The numbers of this function are not integers: they are the binary64
    floats of JavaScript. *)
Record Image := { width : float; height : float }.

Record Window := {
  innerWidth : float; innerHeight : float;
  outerWidth : float; outerHeight : float;
  screenX : float; screenY : float;
}.

Inductive request :=
| resizeTo (w h : float)
| moveTo (x y : float).

(** [Math.min] of two numbers: NaN wins, and -0 is below +0. *)
Definition Math_min (a b : float) : float :=
  if is_nan a || is_nan b then nan
  else if (a <? b)%float then a
  else if (b <? a)%float then b
  else if get_sign a then a else b.

(** The body of [img.onload]: the two requests it sends to the window. *)
Definition resizeWindow (img : Image) (maxWidth maxHeight : float)
    (window : Window) : list request :=
  let scaleWidth := (maxWidth / width img)%float in
  let scaleHeight := (maxHeight / height img)%float in
  let scaleFactor := Math_min scaleWidth scaleHeight in
  let newWidth := (width img * scaleFactor)%float in
  let newHeight := (height img * scaleFactor)%float in
  let browserUIWidth := (outerWidth window - innerWidth window)%float in
  let browserUIHeight := (outerHeight window - innerHeight window)%float in
  let adjustedWidth := (newWidth + browserUIWidth)%float in
  let adjustedHeight := (newHeight + browserUIHeight)%float in
  let currentLeft := screenX window in
  let currentTop := screenY window in
  let newLeft := (currentLeft - (adjustedWidth - innerWidth window) / 2)%float in
  let newTop := (currentTop - (adjustedHeight - innerHeight window) / 2)%float in
  [resizeTo adjustedWidth adjustedHeight; moveTo newLeft newTop].

(** The window after a request that the host grants as asked: [resizeTo]
    sets the outer size and keeps the decoration, [moveTo] sets the
    position. *)
Definition grant (window : Window) (r : request) : Window :=
  match r with
  | resizeTo w h =>
      {| innerWidth := (w - (outerWidth window - innerWidth window))%float;
         innerHeight := (h - (outerHeight window - innerHeight window))%float;
         outerWidth := w; outerHeight := h;
         screenX := screenX window; screenY := screenY window |}
  | moveTo x y =>
      {| innerWidth := innerWidth window; innerHeight := innerHeight window;
         outerWidth := outerWidth window; outerHeight := outerHeight window;
         screenX := x; screenY := y |}
  end.

(** The centre of the window on the screen. *)
Definition centre (window : Window) : float * float :=
  ((screenX window + outerWidth window / 2)%float,
   (screenY window + outerHeight window / 2)%float).

(** ** Inputs for the examples *)

Definition rnd_zero : random_source := λ _, 0%Q.

(** Draw [t] is [(t mod 100) / 100]. *)
Definition rnd_cycle : random_source := λ t, (Z.of_nat (t mod 100) # 100)%Q.

Definition three_files : list File :=
  [ {| file_name := "a.png"; file_size := 1 |};
    {| file_name := "b.png"; file_size := 2 |};
    {| file_name := "c.png"; file_size := 3 |} ].

(** Three images, thirty seconds a slide. *)
Definition props3 : PracticeProps :=
  {| timeMS := 30000; imageFiles := three_files; buttons_bubble := true |}.

Definition unmounted : World := {| browser := new_page 0; practice := None |}.

(** The session of [props3] right after mounting, after two presses of the
    right-arrow key, when the first order is used up, and after 500 ticks. *)
Definition world3 : World :=
  Eval vm_compute in
    match mount rnd_zero props3 0 (new_page 0) with
    | Returned w => w
    | _ => unmounted
    end.

Definition world3_last : World :=
  Eval vm_compute in
    match run rnd_zero props3 0 world3 [KeyDown "ArrowRight"; KeyDown "ArrowRight"] with
    | Returned w => w
    | _ => unmounted
    end.

Definition world3_500 : World :=
  Eval vm_compute in
    match run rnd_zero props3 0 world3 (repeat Tick 500) with
    | Returned w => w
    | _ => unmounted
    end.

Definition mounted_of (w : World) : Mounted :=
  default {| state := {| imageOrder := []; orderIndex := 0;
                         currentImageUrl := 0; showOverlay := false;
                         pause := false; mute := false; counter := 0 |};
             eff_url := 0; eff_timer := None; eff_listener := 0;
             eff_deps := (0, false) |}
          (practice w).

(** An image that fills a 1600 by 1200 viewport exactly, in a window with
    16 by 40 pixels of decoration. *)
Definition image_800_600 : Image := {| width := 800; height := 600 |}.
Definition window_1600_1200 : Window :=
  {| innerWidth := 1600; innerHeight := 1200;
     outerWidth := 1616; outerHeight := 1240;
     screenX := 100; screenY := 50 |}.

(** ** More observations *)

(** The calls that [step] makes: the timer callback and the key listener
    with the closure they were registered with, which agrees with the
    state; the handlers of the overlay and of the image with the closure of
    the render on screen. *)
Definition component_call (random : random_source) (props : PracticeProps)
    (h : nat → State → State → nat → outcome (State * nat))
    (cl st : State) : Prop :=
  (h = on_interval random props ∧ agrees cl st)
  ∨ (∃ key, h = handleKeyPress random props key ∧ agrees cl st)
  ∨ (∃ b, h = onClick random props b ∧ cl = st)
  ∨ (h = onClickImage ∧ cl = st).

(** A chunk as [generateRandomOrder] makes them for these files. *)
Definition is_chunk (props : PracticeProps) (chunk : list nat) : Prop :=
  length chunk = Nat.min MAX_RANDOM_LEN (length (imageFiles props))
  ∧ NoDup chunk
  ∧ Forall (λ i, i < length (imageFiles props)) chunk.


(** ** The folder scan, the settings page and the application shell *)

(** What a promise settles to: a value, or a rejection with the name of
    its error. *)
Inductive promise (A : Type) : Type :=
| Resolves (a : A)
| Rejects (name : string).
Arguments Resolves {A} a.
Arguments Rejects {A} name.

(** The [File] that [getFile] resolves to: the handle above together with
    its MIME type. *)
Record ScannedFile := { scanned : File; type : string }.

(** An entry of a directory: [kind] is ["file"] or ["directory"]. *)
Inductive Entry :=
| FileHandle (getFile : promise ScannedFile)
| DirectoryHandle (name : string).

(** A directory handle: its name, and what iterating over [values()]
    yields, a rejection when the permission is missing. *)
Record DirHandle := { dir_name : string; values : promise (list Entry) }.

(** The loop of [FileScanner], with the array [files] built so far. *)
Fixpoint FileScanner_loop (entries : list Entry) (files : list File)
    : promise (list File) :=
  match entries with
  | [] => Resolves files
  | FileHandle getFile :: entries =>
      match getFile with
      | Resolves file =>
          if String.prefix "image/" (type file)
          then FileScanner_loop entries (files ++ [scanned file])
          else FileScanner_loop entries files
      | Rejects name => Rejects name
      end
  | DirectoryHandle _ :: entries => FileScanner_loop entries files
  end.

Definition FileScanner (dirHandle : DirHandle) : promise (list File) :=
  match values dirHandle with
  | Resolves entries => FileScanner_loop entries []
  | Rejects name => Rejects name
  end.

Module App.

(** [SessionType] with the members that [App.tsx] names. *)
Inductive SessionType := Practice | Class | Relaxed | Custom.

(** Modelled from the spec: the members of [FixedTime] between
    [ThirtySeconds] and [Other]; its declaration in [types/session] is not
    among the sources, which name these two only, and the spec lists 30,
    45, 60 and 90 seconds and a custom time. *)
Inductive FixedTime :=
| ThirtySeconds | FortyFiveSeconds | SixtySeconds | NinetySeconds | Other.

Record SelectedFolder := {
  name : string;
  items : nat;
  totalSize : nat;
  dirHandle : DirHandle;
}.

(** The state of [App]. *)
Record State := {
  sessionType : SessionType;
  fixedTime : FixedTime;
  selectedFolder : option SelectedFolder;
  imageFiles : list File;
  runApp : bool;
}.

Definition initial : State :=
  {| sessionType := Practice; fixedTime := ThirtySeconds;
     selectedFolder := None; imageFiles := []; runApp := false |}.

(** What [App] renders; [Practice] with the props it is given. *)
Inductive View :=
| PracticePage (fixedTime : FixedTime) (imageFiles : list File)
| ClassPage
| RelaxedPage
| CustomPage
| SettingsPage.

Definition render (a : State) : View :=
  match runApp a, selectedFolder a with
  | true, Some _ =>
      match sessionType a with
      | Practice => PracticePage (fixedTime a) (imageFiles a)
      | Class => ClassPage
      | Relaxed => RelaxedPage
      | Custom => CustomPage
      end
  | _, _ => SettingsPage
  end.

End App.

Module Settings.

(** The two preferences that [runApp] reads. *)
Record Preferences := {
  fixedTime : App.FixedTime;
  customFixedTime : option Q;
}.

(** The page: the state of [App], which the setters passed to [Settings]
    write, with the alerts shown and the folders that [saveLastFolder] has
    stored so far, newest first. *)
Record Page := {
  app : App.State;
  alerts : list string;
  saved : list DirHandle;
}.

Definition initial : Page :=
  {| app := App.initial; alerts := []; saved := [] |}.

Definition alert (message : string) (p : Page) : Page :=
  {| app := app p; alerts := message :: alerts p; saved := saved p |}.

Definition setRunApp (v : bool) (p : Page) : Page :=
  {| app := {| App.sessionType := App.sessionType (app p);
               App.fixedTime := App.fixedTime (app p);
               App.selectedFolder := App.selectedFolder (app p);
               App.imageFiles := App.imageFiles (app p);
               App.runApp := v |};
     alerts := alerts p; saved := saved p |}.

Definition setSelectedFolder (v : App.SelectedFolder) (p : Page) : Page :=
  {| app := {| App.sessionType := App.sessionType (app p);
               App.fixedTime := App.fixedTime (app p);
               App.selectedFolder := Some v;
               App.imageFiles := App.imageFiles (app p);
               App.runApp := App.runApp (app p) |};
     alerts := alerts p; saved := saved p |}.

Definition setImageFiles (v : list File) (p : Page) : Page :=
  {| app := {| App.sessionType := App.sessionType (app p);
               App.fixedTime := App.fixedTime (app p);
               App.selectedFolder := App.selectedFolder (app p);
               App.imageFiles := v;
               App.runApp := App.runApp (app p) |};
     alerts := alerts p; saved := saved p |}.

Definition runApp (preferences : Preferences) (p : Page) : Page :=
  match App.selectedFolder (app p) with
  | None => alert "Please select a folder first" p
  | Some _ =>
      match fixedTime preferences, customFixedTime preferences with
      | App.Other, None => alert "Please enter a custom fixed time" p
      | _, _ => setRunApp true p
      end
  end.

(** The promise rejects only where [FileScanner] does, before any setter
    is called. *)
Definition updateFolderData (dirHandle : DirHandle) (p : Page)
    : promise Page :=
  match FileScanner dirHandle with
  | Rejects name => Rejects name
  | Resolves files =>
      if length files =? 0 then
        Resolves (alert "No image files found in the selected folder" p)
      else
        let totalSize := foldl (λ sum file, sum + file_size file) 0 files in
        let p := setSelectedFolder
                   {| App.name := dir_name dirHandle;
                      App.items := length files;
                      App.totalSize := totalSize;
                      App.dirHandle := dirHandle |} p in
        Resolves (setImageFiles files p)
  end.

(** [saveLastFolder] is not among the sources: what its promise settles
    to is the parameter [save], and a call that resolves is recorded.  A
    rejection is taken to be an [Error] object, as those of the browser
    are. *)
Definition saveLastFolder (save : promise unit) (dirHandle : DirHandle)
    (p : Page) : promise Page :=
  match save with
  | Resolves _ =>
      Resolves {| app := app p; alerts := alerts p;
                  saved := dirHandle :: saved p |}
  | Rejects name => Rejects name
  end.

(** [supported] is ["showDirectoryPicker" in window], and [picker] what
    [window.showDirectoryPicker()] settles to.  The [try] block leaves the
    page it had reached and the name of the error that ended it, if any. *)
Definition handleFolderSelect (supported : bool) (picker : promise DirHandle)
    (save : promise unit) (p : Page) : Page :=
  if negb supported then
    alert "Folder selection is not yet implemented for your browser/OS. Please use a Chromium-based browser on desktop." p
  else
    let '(p, err) :=
      match picker with
      | Rejects name => (p, Some name)
      | Resolves dirHandle =>
          match updateFolderData dirHandle p with
          | Rejects name => (p, Some name)
          | Resolves p =>
              match saveLastFolder save dirHandle p with
              | Rejects name => (p, Some name)
              | Resolves p => (p, None)
              end
          end
      end in
    match err with
    | Some name =>
        if decide (name ≠ "AbortError")
        then alert "An error occurred while selecting the folder" p
        else p
    | None => p
    end.

(** [found] is what [getLastFolder()], not among the sources, settles
    to. *)
Definition restoreLastFolder (found : promise (option DirHandle)) (p : Page)
    : Page :=
  match found with
  | Rejects _ => p
  | Resolves None => p
  | Resolves (Some handle) =>
      match updateFolderData handle p with
      | Rejects _ => p
      | Resolves p => p
      end
  end.

(** What can happen to the page.  The folder handlers are asynchronous and
    may finish whatever [App] renders by then; the model lets the two
    buttons be clicked at any time as well, which only adds runs. *)
Inductive event :=
| SelectFolder (supported : bool) (picker : promise DirHandle)
    (save : promise unit)
| RestoreLastFolder (found : promise (option DirHandle))
| Start (preferences : Preferences)
| Exit.                       (* [setRunApp(false)] of the overlay *)

Definition step (p : Page) (e : event) : Page :=
  match e with
  | SelectFolder supported picker save =>
      handleFolderSelect supported picker save p
  | RestoreLastFolder found => restoreLastFolder found p
  | Start preferences => runApp preferences p
  | Exit => setRunApp false p
  end.

Definition run (events : list event) : Page := foldl step initial events.

(** The folder on show and the files agree. *)
Definition consistent (a : App.State) : Prop :=
  match App.selectedFolder a with
  | None => App.imageFiles a = [] ∧ App.runApp a = false
  | Some folder =>
      App.imageFiles a ≠ []
      ∧ App.items folder = length (App.imageFiles a)
      ∧ App.totalSize folder = sum_list (file_size <$> App.imageFiles a)
      ∧ FileScanner (App.dirHandle folder) = Resolves (App.imageFiles a)
  end.

End Settings.



(** The props that [App] hands to [Practice]; [ms] stands for
    [fixedTimeToMS]. *)
Definition practice_props (ms : App.FixedTime → Q) (bubble : bool)
    (fixedTime : App.FixedTime) (files : list File) : PracticeProps :=
  {| timeMS := ms fixedTime; imageFiles := files; buttons_bubble := bubble |}.

(** ** More inputs for the examples *)

(** The session of [props3] after a click on the image, and after
    unmounting. *)
Definition world3_overlay : World :=
  Eval vm_compute in
    match run rnd_zero props3 0 world3 [ClickImage] with
    | Returned w => w
    | _ => unmounted
    end.


(** A readable folder: two images around a text file and a subfolder. *)
Definition holiday_entries : list Entry :=
  [ FileHandle (Resolves {| scanned := {| file_name := "a.png"; file_size := 1 |};
                            type := "image/png" |});
    FileHandle (Resolves {| scanned := {| file_name := "notes.txt"; file_size := 7 |};
                            type := "text/plain" |});
    DirectoryHandle "raw";
    FileHandle (Resolves {| scanned := {| file_name := "b.jpg"; file_size := 2 |};
                            type := "image/jpeg" |}) ].

Definition holiday : DirHandle :=
  {| dir_name := "holiday"; values := Resolves holiday_entries |}.

(** A folder with nothing to show. *)
Definition papers : DirHandle :=
  {| dir_name := "papers";
     values := Resolves
       [ FileHandle (Resolves {| scanned := {| file_name := "cv.pdf"; file_size := 9 |};
                                 type := "application/pdf" |}) ] |}.

(** The folder is picked, and the session started with thirty seconds a
    slide. *)
Definition pick_and_start : list Settings.event :=
  [ Settings.SelectFolder true (Resolves holiday) (Resolves ());
    Settings.Start {| Settings.fixedTime := App.ThirtySeconds;
                      Settings.customFixedTime := None |} ].

(** * Properties *)

(** ** The random source *)

Lemma random_floor_lt random t n :
  in_unit_interval random → 0 < n → random_floor random t n < n.
Proof.
  intros Hr Hn. destruct (Hr t) as [H0 H1]. unfold random_floor.
  set (q := (random t * inject_Z (Z.of_nat n))%Q).
  assert (Hq : (q < inject_Z (Z.of_nat n))%Q).
  { unfold q. rewrite <- (Qmult_1_l (inject_Z (Z.of_nat n))) at 2.
    apply Qmult_lt_compat_r; [|done].
    change 0%Q with (inject_Z 0). rewrite <- Zlt_Qlt. lia. }
  assert (Hq0 : (0 <= q)%Q).
  { unfold q. apply Qmult_le_0_compat; [done|].
    change 0%Q with (inject_Z 0). rewrite <- Zle_Qle. lia. }
  assert (Hf : (Qfloor q < Z.of_nat n)%Z).
  { rewrite Zlt_Qlt. eapply Qle_lt_trans; [apply Qfloor_le | done]. }
  assert (Hf0 : (0 <= Qfloor q)%Z).
  { rewrite <- (Qfloor_Z 0). by apply Qfloor_resp_le. }
  lia.
Qed.

Lemma gt_half_spec k len : gt_half k len = true ↔ len < 2 * k.
Proof.
  unfold gt_half. rewrite negb_true_iff, <- not_true_iff_false, Qle_bool_iff.
  unfold Qle, Qdiv, Qinv, Qmult, inject_Z. simpl. lia.
Qed.

(** ** [generateRandomOrder]: the shuffling branch *)

Lemma swap_length order i j : length (swap order i j) = length order.
Proof.
  unfold swap. destruct (order !! i), (order !! j); try done.
  by rewrite !length_insert.
Qed.

Lemma swap_Forall (P : nat → Prop) order i j :
  Forall P order → Forall P (swap order i j).
Proof.
  intros HP. unfold swap.
  destruct (order !! i) as [a|] eqn:Ha, (order !! j) as [b|] eqn:Hb; try done.
  rewrite Forall_lookup in HP.
  apply Forall_insert; [apply Forall_insert|]; eauto.
  by apply Forall_lookup.
Qed.

Lemma swap_NoDup order i j : NoDup order → NoDup (swap order i j).
Proof.
  intros Hnd. unfold swap.
  destruct (order !! i) as [a|] eqn:Ha, (order !! j) as [b|] eqn:Hb; try done.
  pose proof (lookup_lt_Some _ _ _ Ha) as Hi.
  pose proof (lookup_lt_Some _ _ _ Hb) as Hj.
  rewrite NoDup_alt in Hnd. apply NoDup_alt. intros p q x.
  rewrite !list_lookup_insert, !length_insert.
  repeat case_decide; intros; destruct_and?; simplify_eq; eauto;
    match goal with
    | H1 : order !! ?u = Some ?x, H2 : order !! ?v = Some ?x |- _ =>
        pose proof (Hnd u v x H1 H2); naive_solver
    end.
Qed.

(** The index [j] of a swap lies in the array: the branch of [swap] that
    leaves the array alone is never taken. *)
Lemma shuffle_swap_in_range random len i t :
  in_unit_interval random → i < len →
  i + random_floor random t (len - i) < len.
Proof.
  intros Hr Hi.
  pose proof (random_floor_lt random t (len - i) Hr). lia.
Qed.

Lemma shuffle_loop_spec random len n : ∀ i t order,
  let r := shuffle_loop random len n i t order in
  length r.1 = length order
  ∧ (NoDup order → NoDup r.1)
  ∧ (Forall (λ x, x < len) order → Forall (λ x, x < len) r.1)
  ∧ r.2 = t + n.
Proof.
  induction n as [|n IH]; intros i t order; simpl.
  - split_and!; auto with lia.
  - destruct (IH (S i) (S t)
                (swap order i (i + random_floor random t (len - i))))
      as (Hlen & Hnd & Hall & Ht).
    rewrite swap_length in Hlen.
    split_and!; auto using swap_NoDup, swap_Forall with lia.
Qed.

(** ** [generateRandomOrder]: the sampling branch *)

Lemma set_add_NoDup x s : NoDup s → NoDup (set_add x s).
Proof.
  intros Hs. unfold set_add. case_decide; [done|].
  apply NoDup_app. split_and!; [done| |apply NoDup_singleton].
  intros y Hy ->%list_elem_of_singleton. done.
Qed.

Lemma set_add_length x s :
  length s ≤ length (set_add x s) ∧ length (set_add x s) ≤ S (length s).
Proof.
  unfold set_add. case_decide; [lia|]. rewrite length_app. simpl. lia.
Qed.

Lemma set_add_Forall (P : nat → Prop) x s :
  P x → Forall P s → Forall P (set_add x s).
Proof.
  intros Hx Hs. unfold set_add. case_decide; [done|].
  apply Forall_app. auto.
Qed.

(** Whatever the loop returns has exactly [k] elements, all different and
    all below [len]. *)
Lemma sample_loop_sound random len k fuel : ∀ t result l t',
  in_unit_interval random → k ≤ len →
  sample_loop fuel random len k t result = Returned (l, t') →
  NoDup result → Forall (λ x, x < len) result → length result ≤ k →
  NoDup l ∧ Forall (λ x, x < len) l ∧ length l = k.
Proof.
  intros t result l t' Hr Hk. revert t result.
  induction fuel as [|fuel IH]; intros t result; simpl;
    destruct (Nat.ltb_spec (length result) k) as [Hlt|Hge]; try done.
  1,3: intros [= <- <-] ???; split_and!; auto with lia.
  intros Hrun Hnd Hall Hlen.
  pose proof (set_add_length (random_floor random t len) result).
  apply IH in Hrun; auto using set_add_NoDup with lia.
  apply set_add_Forall; [|done]. apply random_floor_lt; [done|lia].
Qed.

(** The loop returns as soon as the draws have filled the [Set]. *)
Lemma sample_loop_total random len k fuel : ∀ t result,
  k ≤ length (draws random len t fuel result) →
  ∃ l t', sample_loop fuel random len k t result = Returned (l, t').
Proof.
  induction fuel as [|fuel IH]; intros t result; simpl;
    destruct (Nat.ltb_spec (length result) k) as [Hlt|Hge]; intros Hk.
  - lia.
  - by exists result, t.
  - by apply IH.
  - by exists result, t.
Qed.

(** ** [generateRandomOrder] *)

Lemma generateRandomOrder_sound random fuel t len l t' :
  in_unit_interval random →
  generateRandomOrder fuel random t len = Returned (l, t') →
  length l = Nat.min MAX_RANDOM_LEN len ∧ NoDup l ∧ Forall (λ x, x < len) l.
Proof.
  intros Hr. unfold generateRandomOrder.
  set (k := Nat.min MAX_RANDOM_LEN len).
  destruct (gt_half k len) eqn:Hhalf.
  - pose proof (shuffle_loop_spec random len k 0 t (seq 0 len))
      as (Hlen & Hnd & Hall & _).
    destruct (shuffle_loop random len k 0 t (seq 0 len)) as [order t1].
    cbn [fst snd] in *. intros [= <- <-]. rewrite length_seq in Hlen.
    split_and!.
    + rewrite length_take. lia.
    + eapply sublist_NoDup; [apply Hnd, NoDup_seq | apply sublist_take].
    + apply Forall_take, Hall, Forall_seq. lia.
  - intros Hrun.
    apply sample_loop_sound in Hrun as (? & ? & ?);
      auto using NoDup_nil_2 with lia.
    cbn [length]. lia.
Qed.

Lemma generateRandomOrder_total random fuel t len :
  enough_draws random t len fuel →
  ∃ l t', generateRandomOrder fuel random t len = Returned (l, t').
Proof.
  unfold enough_draws, generateRandomOrder.
  set (k := Nat.min MAX_RANDOM_LEN len).
  intros [Hdense|Hsparse].
  - rewrite Hdense.
    destruct (shuffle_loop random len k 0 t (seq 0 len)) as [order t1]. eauto.
  - destruct (gt_half k len).
    + destruct (shuffle_loop random len k 0 t (seq 0 len)) as [order t1]. eauto.
    + by apply sample_loop_total.
Qed.

(** C1: for every [len] of at least 1, [generateRandomOrder] returns
    indices that all lie below [len], are pairwise distinct, and number
    between 1 and [min 50 len]. *)
Theorem generateRandomOrder_indices random fuel t len :
  in_unit_interval random → enough_draws random t len fuel → 1 ≤ len →
  ∃ l t', generateRandomOrder fuel random t len = Returned (l, t')
    ∧ Forall (λ x, 0 ≤ x ∧ x < len) l
    ∧ NoDup l
    ∧ 1 ≤ length l ∧ length l ≤ Nat.min 50 len.
Proof.
  intros Hr Hdraws Hlen.
  destruct (generateRandomOrder_total _ _ _ _ Hdraws) as (l & t' & Hrun).
  destruct (generateRandomOrder_sound _ _ _ _ _ _ Hr Hrun) as (Hl & Hnd & Hall).
  exists l, t'. unfold MAX_RANDOM_LEN in Hl. split_and!; try done; try lia.
  eapply Forall_impl; [done|]. simpl. lia.
Qed.

(** C10: for every [len] of at least 1, [generateRandomOrder] returns
    exactly [min 50 len] elements. *)
Theorem generateRandomOrder_length random fuel t len :
  in_unit_interval random → enough_draws random t len fuel → 1 ≤ len →
  ∃ l t', generateRandomOrder fuel random t len = Returned (l, t')
    ∧ length l = Nat.min 50 len.
Proof.
  intros Hr Hdraws _.
  destruct (generateRandomOrder_total _ _ _ _ Hdraws) as (l & t' & Hrun).
  destruct (generateRandomOrder_sound _ _ _ _ _ _ Hr Hrun) as (Hl & _).
  eauto.
Qed.

(** C8, as the code has it: with [len] 0 the function returns the empty
    array and draws nothing; it does not fail. *)
Theorem generateRandomOrder_zero random fuel t :
  generateRandomOrder fuel random t 0 = Returned ([], t).
Proof. by destruct fuel. Qed.

(** C8 as stated fails: the call with [len] 0 throws nothing. *)
Lemma generateRandomOrder_zero_throws_not :
  ¬ ∃ e, generateRandomOrder 0 rnd_zero 0 0 = Thrown e.
Proof. intros [e He]. vm_compute in He. discriminate. Qed.

(** ** The session *)

Lemma outcome_bind_ret {A} (m : outcome A) : m ≫= mret = m.
Proof. by destruct m. Qed.

Lemma outcome_bind_Returned {A B} (m : outcome A) (k : A → outcome B) b :
  m ≫= k = Returned b → ∃ a, m = Returned a ∧ k a = Returned b.
Proof. destruct m; naive_solver. Qed.

Section Session.
Context (random : random_source) (props : PracticeProps).
Hypothesis random_ok : in_unit_interval random.

Local Abbreviation N := (length (imageFiles props)).

Lemma in_range_files st : in_range props st → 1 ≤ N.
Proof.
  intros [Hi Hall]. apply lookup_lt_is_Some_2 in Hi as [x Hx].
  rewrite Forall_lookup in Hall. specialize (Hall _ _ Hx). simpl in Hall. lia.
Qed.

Lemma in_range_file st :
  in_range props st →
  is_Some (imageOrder st !! orderIndex st ≫= λ i, imageFiles props !! i).
Proof.
  intros [Hi Hall]. apply lookup_lt_is_Some_2 in Hi as [x Hx].
  rewrite Forall_lookup in Hall. specialize (Hall _ _ Hx). simpl in Hall.
  rewrite Hx. simpl. by apply lookup_lt_is_Some_2.
Qed.

(** [next] read through a closure that agrees with the state. *)
Lemma next_agrees fuel cl st t :
  agrees cl st → in_range props st →
  next random props fuel cl st t =
    if decide (orderIndex st + 1 = length (imageOrder st)) then
      '(chunk, t') ← generateRandomOrder fuel random t N;
      mret (setCounter 0 (setOrderIndex (orderIndex st + 1)
              (setImageOrder (imageOrder st ++ chunk) st)), t')
    else mret (setCounter 0 (setOrderIndex (orderIndex st + 1) st), t).
Proof.
  intros (Hio & Hoi & _) [Hlt _]. unfold next. rewrite Hio, Hoi.
  destruct (Z.eqb_spec (Z.of_nat (orderIndex st))
              (Z.of_nat (length (imageOrder st)) - 1)%Z);
    case_decide; try lia; done.
Qed.

Lemma next_preserves fuel cl st t st' t' :
  agrees cl st → in_range props st →
  next random props fuel cl st t = Returned (st', t') →
  preserves props st st' ∧ orderIndex st' = orderIndex st + 1
  ∧ counter st' = 0.
Proof.
  intros Hcl Hin. rewrite next_agrees by done.
  pose proof (in_range_files _ Hin) as HN. destruct Hin as [Hlt Hall].
  case_decide as Hlast.
  - intros ([chunk t1] & Hgen & [= <- <-])%outcome_bind_Returned.
    apply generateRandomOrder_sound in Hgen as (Hlen & _ & Hchunk); [|done].
    unfold MAX_RANDOM_LEN in Hlen.
    unfold preserves, in_range; simpl; split_and!; try done; try lia.
    + rewrite length_app. lia.
    + by apply Forall_app.
  - intros [= <- <-].
    unfold preserves, in_range; simpl; split_and!; try done; lia.
Qed.

Lemma prev_preserves cl st :
  agrees cl st → in_range props st → preserves props st (prev cl st).
Proof.
  intros (_ & Hoi & _) [Hlt Hall]. unfold prev. rewrite Hoi.
  destruct (Nat.eqb_spec (orderIndex st) 0).
  - unfold preserves, in_range; by split_and!.
  - unfold preserves, in_range; simpl; split_and!; try done; lia.
Qed.

Lemma preserves_refl st : in_range props st → preserves props st st.
Proof. intros. unfold preserves. by split_and!. Qed.

Lemma set_flags_preserves st st' (f : State → State) :
  (∀ s, imageOrder (f s) = imageOrder s ∧ orderIndex (f s) = orderIndex s
        ∧ currentImageUrl (f s) = currentImageUrl s) →
  preserves props st st' → preserves props st (f st').
Proof.
  intros Hf ([H1 H1'] & H2 & H3). destruct (Hf st') as (Hio & Hoi & Hurl).
  split_and!; [split|..]; rewrite ?Hio, ?Hoi, ?Hurl; done.
Qed.

Lemma handleKeyPress_preserves key fuel cl st t st' t' :
  agrees cl st → in_range props st →
  handleKeyPress random props key fuel cl st t = Returned (st', t') →
  preserves props st st'.
Proof.
  intros Hcl Hin. unfold handleKeyPress.
  intros ([st1 t1] & Hnext & [= <- <-])%outcome_bind_Returned.
  assert (Hpause : ∀ s, preserves props st s → preserves props st
    (if decide (key = " ") then setPause (negb (pause cl)) s else s)).
  { intros s Hs. destruct (decide (key = " ")); [|done].
    apply (set_flags_preserves _ _ (setPause _)); [by intros []|done]. }
  apply Hpause. destruct (decide (key = "ArrowRight")) as [->|Hkey].
  - apply next_preserves in Hnext as (? & _); [|done..].
    by rewrite decide_False.
  - injection Hnext as <- <-.
    destruct (decide (key = "ArrowLeft"));
      [by apply prev_preserves | by apply preserves_refl].
Qed.

Lemma on_interval_preserves fuel cl st t st' t' :
  agrees cl st → in_range props st →
  on_interval random props fuel cl st t = Returned (st', t') →
  preserves props st st'.
Proof.
  intros Hcl Hin. unfold on_interval.
  destruct (Qle_bool _ _).
  - intros ([st1 t1] & Hnext & [= <- <-])%outcome_bind_Returned.
    apply next_preserves in Hnext as (? & _); [|done..].
    apply (set_flags_preserves _ _ (setCounter _)); [by intros []|done].
  - intros [= <- <-].
    apply (set_flags_preserves _ _ (setCounter _)); [by intros []|].
    by apply preserves_refl.
Qed.

Lemma onClick_preserves b fuel st t st' t' :
  in_range props st →
  onClick random props b fuel st st t = Returned (st', t') →
  preserves props st st'.
Proof.
  intros Hin. unfold onClick.
  intros ([st1 t1] & Hb & [= <- <-])%outcome_bind_Returned.
  assert (Hcl : agrees st st) by done.
  assert (Hst1 : preserves props st st1).
  { destruct b; cbv [mret outcome_ret] in Hb; simplify_eq.
    - by apply next_preserves in Hb as (? & _).
    - by apply prev_preserves.
    - apply (set_flags_preserves _ _ (setPause _)); [by intros []|].
      by apply preserves_refl.
    - apply (set_flags_preserves _ _ (setMute _)); [by intros []|].
      by apply preserves_refl.
    - by apply preserves_refl. }
  destruct (buttons_bubble props); [|done].
  apply (set_flags_preserves _ _ (setShowOverlay _)); [by intros []|done].
Qed.

(** *** Renders *)

Lemma cleanup_spec w m t :
  wf props w → practice w = Some m →
  ∃ url0, urls_live (browser w) = [eff_url m; url0]
    ∧ url0 < eff_url m ∧ (url0 ∉ urls_revoked (browser w))
    ∧ cleanup m (set_random_calls t (browser w)) =
        {| fresh := fresh (browser w); urls_live := [url0];
           urls_revoked := eff_url m :: urls_revoked (browser w);
           timers := []; keydown := []; random_calls := t |}.
Proof.
  intros [Hrev Hwf] Hm. rewrite Hm in Hwf.
  destruct Hwf as (_ & _ & _ & _ & _ & (url0 & Hlive & Hlt & Hnew)
                   & cl & _ & Hkey & Htimer).
  exists url0. split_and!; try done.
  unfold cleanup, revokeObjectURL, removeEventListener. simpl.
  rewrite Hlive.
  assert (filter (λ v, v ≠ eff_url m) [eff_url m; url0] = [url0]) as ->.
  { rewrite filter_cons_False by naive_solver.
    rewrite filter_cons_True by lia. done. }
  destruct (eff_timer m) as [timer|]; destruct Htimer as [_ Htimers];
    unfold clearInterval; simpl; rewrite Hkey, Htimers;
    rewrite ?filter_cons_False, ?filter_nil by naive_solver; done.
Qed.

(** The render after a handler: the world stays well formed, and the
    state is the one the handler wrote, but for the URL when the effect
    ran again. *)
Lemma commit_spec w m st' t :
  wf props w → practice w = Some m → preserves props (state m) st' →
  ∃ w' m', commit props m st' (set_random_calls t (browser w)) = Returned w'
    ∧ wf props w' ∧ practice w' = Some m'
    ∧ state m' = setCurrentImageUrl (eff_url m') st'
    ∧ random_calls (browser w') = t
    ∧ ((orderIndex st', pause st')
         = (orderIndex (state m), pause (state m)) →
       w' = {| browser := set_random_calls t (browser w);
               practice := Some (rendered st' m) |}).
Proof.
  intros Hwf Hm (Hin & Hurl & Horder).
  destruct (cleanup_spec w m t Hwf Hm) as (url0 & Hlive & Hlt0 & Hnew0 & Hclean).
  destruct Hwf as [Hrev Hwf]. rewrite Hm in Hwf.
  destruct Hwf as (_ & Hdeps & Hcur & Hnew & Hlt & _ & cl & Hcl & Hkey & Htimer).
  unfold commit. rewrite Hdeps. case_decide as Hsame.
  - eexists _, _. split_and!; [done| |done|..]; simpl.
    + split; [done|]. simpl. injection Hsame as Hoi Hpause.
      split_and!; try done; try congruence.
      { eauto. }
      exists cl. destruct Hcl as (? & ? & ?). split_and!; [|done|].
      * unfold agrees. rewrite Horder by done. split_and!; congruence.
      * by rewrite Hpause.
    + destruct st'. simpl in *. by rewrite <- Hcur, Hurl.
    + done.
    + done.
  - rewrite Hclean. unfold effect.
    destruct (in_range_file _ Hin) as [file ->]. simpl.
    assert (Hrev' : Forall (λ u, u < S (fresh (browser w)))
                      (eff_url m :: urls_revoked (browser w))).
    { constructor; [lia|]. eapply Forall_impl; [done|]. simpl. lia. }
    assert (Hfresh : ∀ k, fresh (browser w) + k ∉ urls_revoked (browser w)).
    { intros k Hk. rewrite Forall_forall in Hrev. apply Hrev in Hk. lia. }
    destruct (pause st') eqn:Hpause; simpl;
      eexists _, _; (split_and!; [done| |done|done|done|done]);
      (split; simpl; [eapply Forall_impl; [done|]; simpl; lia|]);
      (split_and!; try done; try lia).
    1,5: by rewrite Hpause.
    1,4: rewrite not_elem_of_cons; split; [lia|];
         rewrite <- (Nat.add_0_r (fresh (browser w))); apply Hfresh.
    1,3: exists url0; split_and!; try done; try lia;
         rewrite not_elem_of_cons; split; [lia | done].
    all: exists st'; by split_and!.
Qed.

Lemma run_handler_spec (h : handler) fuel cl w m st' t' :
  wf props w → practice w = Some m →
  h fuel cl (state m) (random_calls (browser w)) = Returned (st', t') →
  preserves props (state m) st' →
  ∃ w' m', run_handler props h fuel cl w = Returned w'
    ∧ wf props w' ∧ practice w' = Some m'
    ∧ state m' = setCurrentImageUrl (eff_url m') st'
    ∧ random_calls (browser w') = t'
    ∧ ((orderIndex st', pause st')
         = (orderIndex (state m), pause (state m)) →
       w' = {| browser := set_random_calls t' (browser w);
               practice := Some (rendered st' m) |}).
Proof.
  intros Hwf Hm Hh Hpres. unfold run_handler. rewrite Hm, Hh. simpl.
  by apply commit_spec.
Qed.

Lemma run_handler_wf (h : handler) fuel cl w m w' :
  wf props w → practice w = Some m →
  (∀ st' t', h fuel cl (state m) (random_calls (browser w)) = Returned (st', t') →
             preserves props (state m) st') →
  run_handler props h fuel cl w = Returned w' → wf props w'.
Proof.
  intros Hwf Hm Hpres Hrun.
  assert (∃ st' t', h fuel cl (state m) (random_calls (browser w))
                    = Returned (st', t')) as (st' & t' & Hh).
  { unfold run_handler in Hrun. rewrite Hm in Hrun.
    apply outcome_bind_Returned in Hrun as ([st' t'] & Hh & _). eauto. }
  destruct (run_handler_spec h fuel cl w m st' t')
    as (w1 & m1 & Hrun1 & Hwf1 & _); eauto.
  congruence.
Qed.

(** *** Events *)

(** The one key listener is called with its closure. *)
Lemma step_KeyDown fuel w m key :
  wf props w → practice w = Some m →
  ∃ cl, agrees cl (state m)
    ∧ step random props fuel w (KeyDown key)
      = run_handler props (handleKeyPress random props key) fuel cl w.
Proof.
  intros [_ Hwf] Hm. rewrite Hm in Hwf.
  destruct Hwf as (_ & _ & _ & _ & _ & _ & cl & Hcl & Hkey & _).
  exists cl. split; [done|]. unfold step. rewrite Hkey. simpl.
  rewrite Hkey. simpl. rewrite decide_True by apply list_elem_of_here.
  apply outcome_bind_ret.
Qed.

(** While the slideshow runs, the one timer is called with its closure. *)
Lemma step_Tick_running fuel w m :
  wf props w → practice w = Some m → pause (state m) = false →
  ∃ cl, agrees cl (state m)
    ∧ step random props fuel w Tick
      = run_handler props (on_interval random props) fuel cl w.
Proof.
  intros [_ Hwf] Hm Hpause. rewrite Hm in Hwf.
  destruct Hwf as (_ & _ & _ & _ & _ & _ & cl & Hcl & _ & Htimer).
  destruct (eff_timer m) as [timer|]; destruct Htimer as [? Htimers];
    [|congruence].
  exists cl. split; [done|]. unfold step. rewrite Htimers. simpl.
  rewrite Htimers. simpl. rewrite decide_True by apply list_elem_of_here.
  apply outcome_bind_ret.
Qed.

(** While it is paused there is no timer to call. *)
Lemma step_Tick_paused fuel w m :
  wf props w → practice w = Some m → pause (state m) = true →
  step random props fuel w Tick = Returned w.
Proof.
  intros [_ Hwf] Hm Hpause. rewrite Hm in Hwf.
  destruct Hwf as (_ & _ & _ & _ & _ & _ & cl & Hcl & _ & Htimer).
  destruct (eff_timer m) as [timer|]; destruct Htimer as [? Htimers];
    [congruence|].
  unfold step. by rewrite Htimers.
Qed.

Lemma step_unmounted fuel w e :
  wf props w → practice w = None →
  step random props fuel w e = Returned w.
Proof.
  intros [_ Hwf] Hm. rewrite Hm in Hwf. destruct Hwf as [Htimers Hkey].
  destruct e; unfold step, unmount; rewrite ?Htimers, ?Hkey, ?Hm; done.
Qed.

Lemma set_random_calls_id b : set_random_calls (random_calls b) b = b.
Proof. by destruct b. Qed.

Lemma unmount_wf w : wf props w → wf props (unmount w).
Proof.
  intros Hwf. unfold unmount. destruct (practice w) as [m|] eqn:Hm; [|done].
  destruct (cleanup_spec w m (random_calls (browser w)) Hwf Hm)
    as (url0 & _ & _ & _ & Hclean).
  rewrite set_random_calls_id in Hclean. rewrite Hclean.
  destruct Hwf as [Hrev Hwf]. rewrite Hm in Hwf.
  destruct Hwf as (_ & _ & _ & _ & Hlt & _).
  split; simpl; [|done]. by constructor.
Qed.

Lemma step_wf fuel w e w' :
  wf props w → step random props fuel w e = Returned w' → wf props w'.
Proof.
  intros Hwf Hstep. destruct (practice w) as [m|] eqn:Hm.
  2: { rewrite step_unmounted in Hstep by done. congruence. }
  pose proof Hwf as [_ Hwf']. rewrite Hm in Hwf'.
  destruct Hwf' as (Hin & _).
  destruct e as [|key|b| |].
  - destruct (pause (state m)) eqn:Hpause.
    + erewrite step_Tick_paused in Hstep by done. congruence.
    + destruct (step_Tick_running fuel w m) as (cl & Hcl & Heq); [done..|].
      rewrite Heq in Hstep.
      eapply run_handler_wf; eauto using on_interval_preserves.
  - destruct (step_KeyDown fuel w m key) as (cl & Hcl & Heq); [done..|].
    rewrite Heq in Hstep.
    eapply run_handler_wf; eauto using handleKeyPress_preserves.
  - unfold step in Hstep. rewrite Hm in Hstep.
    destruct (showOverlay (state m)); [|by injection Hstep as <-].
    assert (Hrun : b = ButtonExit ∧ w' = unmount w
              ∨ run_handler props (onClick random props b) fuel (state m) w
                = Returned w').
    { destruct b; eauto. injection Hstep as <-. eauto. }
    destruct Hrun as [[_ ->]|Hrun]; [by apply unmount_wf|].
    eapply run_handler_wf; eauto using onClick_preserves.
  - unfold step in Hstep. rewrite Hm in Hstep.
    eapply run_handler_wf; [done..| |done].
    intros st' t' [= <- <-].
    apply (set_flags_preserves _ _ (setShowOverlay _)); [by intros []|].
    by apply preserves_refl.
  - injection Hstep as <-. by apply unmount_wf.
Qed.

Lemma mount_wf fuel t0 w :
  mount random props fuel (new_page t0) = Returned w → wf props w.
Proof.
  unfold mount.
  intros ([order t] & Hgen & Hrest)%outcome_bind_Returned.
  apply generateRandomOrder_sound in Hgen as (Hlen & _ & Hall); [|done].
  apply outcome_bind_Returned in Hrest as ([url b] & Hurl & Heff).
  destruct (imageFiles props !! 0) as [file|] eqn:Hfile; [|done].
  apply lookup_lt_Some in Hfile. injection Hurl as <- <-.
  set (st := {| imageOrder := order; orderIndex := 0; currentImageUrl := 0;
                showOverlay := false; pause := false; mute := false;
                counter := 0 |}) in *.
  assert (Hin : in_range props st).
  { split; simpl; [|done]. unfold MAX_RANDOM_LEN in Hlen. lia. }
  unfold effect in Heff. destruct (in_range_file _ Hin) as [f Hf].
  rewrite Hf in Heff. simpl in Heff. injection Heff as <-.
  split; simpl; [by constructor|].
  split_and!; try done; try lia.
  - by intros ?%elem_of_nil.
  - exists 0. split_and!; try done; try lia. by intros ?%elem_of_nil.
  - exists st. by split_and!.
Qed.

(** Every world of a session is well formed. *)
Lemma reachable_wf w : reachable random props w → wf props w.
Proof.
  induction 1; eauto using mount_wf, step_wf.
Qed.

Lemma run_cons fuel w e events :
  run random props fuel w (e :: events)
  = w' ← step random props fuel w e; run random props fuel w' events.
Proof. done. Qed.

Lemma run_one fuel w e :
  run random props fuel w [e] = step random props fuel w e.
Proof. exact (outcome_bind_ret (step random props fuel w e)). Qed.

Lemma run_app fuel w events1 events2 :
  run random props fuel w (events1 ++ events2)
  = w' ← run random props fuel w events1; run random props fuel w' events2.
Proof.
  revert w. induction events1 as [|e events1 IH]; intros w; [done|].
  rewrite <- app_comm_cons, !run_cons.
  destruct (step random props fuel w e); simpl; auto.
Qed.

(** *** Keys *)

Lemma outcome_bind_pair {A B} (m : outcome (A * B)) :
  ('(a, b) ← m; mret (a, b)) = m.
Proof. by destruct m as [[]| |]. Qed.

Lemma handleKeyPress_ArrowRight fuel cl st t :
  handleKeyPress random props "ArrowRight" fuel cl st t
  = next random props fuel cl st t.
Proof. unfold handleKeyPress. simpl. apply outcome_bind_pair. Qed.

Lemma handleKeyPress_ArrowLeft fuel cl st t :
  handleKeyPress random props "ArrowLeft" fuel cl st t
  = Returned (prev cl st, t).
Proof. done. Qed.

Lemma handleKeyPress_Space fuel cl st t :
  handleKeyPress random props " " fuel cl st t
  = Returned (setPause (negb (pause cl)) st, t).
Proof. done. Qed.

Lemma rendered_id w m :
  practice w = Some m →
  {| browser := set_random_calls (random_calls (browser w)) (browser w);
     practice := Some (rendered (state m) m) |} = w.
Proof.
  intros Hm. rewrite set_random_calls_id. destruct w as [b p], m.
  simpl in *. by subst.
Qed.

(** A key press on a mounted component: the state after the render is
    the one [handleKeyPress] wrote, with the URL of the effect. *)
Lemma step_KeyDown_spec fuel w m key st' t' :
  wf props w → practice w = Some m →
  (∀ cl, agrees cl (state m) →
     handleKeyPress random props key fuel cl (state m)
       (random_calls (browser w)) = Returned (st', t')) →
  ∃ w' m', step random props fuel w (KeyDown key) = Returned w'
    ∧ wf props w' ∧ practice w' = Some m'
    ∧ state m' = setCurrentImageUrl (eff_url m') st'
    ∧ random_calls (browser w') = t'
    ∧ ((orderIndex st', pause st')
         = (orderIndex (state m), pause (state m)) →
       w' = {| browser := set_random_calls t' (browser w);
               practice := Some (rendered st' m) |}).
Proof.
  intros Hwf Hm Hkey.
  destruct (step_KeyDown fuel w m key Hwf Hm) as (cl & Hcl & ->).
  pose proof Hwf as [_ Hwf']. rewrite Hm in Hwf'. destruct Hwf' as (Hin & _).
  eapply run_handler_spec; eauto using handleKeyPress_preserves.
Qed.

(** C4: [prev] at position 0 changes nothing at all; at a position above
    0 it moves the position back by one and sets the tick counter to 0. *)
Theorem prev_at_start_or_back fuel w m :
  reachable random props w → practice w = Some m →
  ∃ w' m', step random props fuel w (KeyDown "ArrowLeft") = Returned w'
    ∧ practice w' = Some m'
    ∧ (orderIndex (state m) = 0 →
         w' = w ∧ orderIndex (state m') = orderIndex (state m)
         ∧ counter (state m') = counter (state m))
    ∧ (0 < orderIndex (state m) →
         orderIndex (state m') = orderIndex (state m) - 1
         ∧ counter (state m') = 0
         ∧ imageOrder (state m') = imageOrder (state m)).
Proof.
  intros Hwf%reachable_wf Hm.
  pose proof Hwf as [_ Hwf']. rewrite Hm in Hwf'.
  destruct Hwf' as (Hin & _).
  destruct (Nat.eq_dec (orderIndex (state m)) 0) as [Hzero|Hpos].
  - destruct (step_KeyDown_spec fuel w m "ArrowLeft" (state m)
                (random_calls (browser w)) Hwf Hm)
      as (w' & m' & Hstep & _ & Hm' & _ & _ & Hsame).
    { intros cl (_ & Hoi & _). rewrite handleKeyPress_ArrowLeft.
      unfold prev. by rewrite Hoi, Hzero. }
    specialize (Hsame eq_refl). rewrite rendered_id in Hsame by done.
    subst w'. exists w, m'. split_and!; try done; try lia.
    all: intros _; split_and!; try done; congruence.
  - destruct (step_KeyDown_spec fuel w m "ArrowLeft"
                (setCounter 0 (setOrderIndex (orderIndex (state m) - 1) (state m)))
                (random_calls (browser w)) Hwf Hm)
      as (w' & m' & Hstep & _ & Hm' & Hst & _).
    { intros cl (_ & Hoi & _). rewrite handleKeyPress_ArrowLeft.
      unfold prev. rewrite Hoi.
      by destruct (Nat.eqb_spec (orderIndex (state m)) 0). }
    exists w', m'. rewrite Hst. split_and!; try done; lia.
Qed.

(** C7: the space key flips [pause] and leaves position, tick counter,
    order, [mute] and overlay as they are; and while the slideshow is
    paused, any number of ticks leaves the world, and so the tick
    counter, as it is. *)
Theorem togglePause_freezes_counter fuel w m :
  reachable random props w → practice w = Some m →
  ∃ w' m', step random props fuel w (KeyDown " ") = Returned w'
    ∧ practice w' = Some m'
    ∧ pause (state m') = negb (pause (state m))
    ∧ orderIndex (state m') = orderIndex (state m)
    ∧ counter (state m') = counter (state m)
    ∧ imageOrder (state m') = imageOrder (state m)
    ∧ mute (state m') = mute (state m)
    ∧ showOverlay (state m') = showOverlay (state m)
    ∧ (pause (state m') = true →
         ∀ n, run random props fuel w' (repeat Tick n) = Returned w').
Proof.
  intros Hwf%reachable_wf Hm.
  destruct (step_KeyDown_spec fuel w m " "
              (setPause (negb (pause (state m))) (state m))
              (random_calls (browser w)) Hwf Hm)
    as (w' & m' & Hstep & Hwf' & Hm' & Hst & _).
  { intros cl (_ & _ & Hpause). by rewrite handleKeyPress_Space, Hpause. }
  exists w', m'. rewrite Hst. split_and!; try done.
  simpl. intros Hpaused n. induction n as [|n IH]; [done|].
  change (repeat Tick (S n)) with (Tick :: repeat Tick n).
  rewrite run_cons, (step_Tick_paused fuel w' m'); [done..|].
  by rewrite Hst.
Qed.

(** *** Moving forward *)

(** [next] returns once the generator does, and this is what it writes. *)
Lemma next_returns fuel cl st t :
  agrees cl st → in_range props st →
  (exhausted st → enough_draws random t N fuel) →
  ∃ st' t', next random props fuel cl st t = Returned (st', t')
    ∧ counter st' = 0
    ∧ orderIndex st' = orderIndex st + 1
    ∧ pause st' = pause st ∧ mute st' = mute st
    ∧ showOverlay st' = showOverlay st
    ∧ (exhausted st →
         ∃ chunk, generateRandomOrder fuel random t N = Returned (chunk, t')
           ∧ imageOrder st' = imageOrder st ++ chunk)
    ∧ (¬ exhausted st → imageOrder st' = imageOrder st ∧ t' = t).
Proof.
  intros Hcl Hin Hdraws. rewrite next_agrees by done. unfold exhausted in *.
  case_decide as Hlast.
  - destruct (generateRandomOrder_total random fuel t N) as (chunk & t' & Hgen).
    { apply Hdraws. lia. }
    rewrite Hgen. simpl. eexists _, _. split_and!; try done.
    + eauto.
    + lia.
  - eexists _, _. split_and!; try done. lia.
Qed.

(** The button of the overlay runs the same [next]. *)
Lemma click_next_is_arrow_right fuel w m :
  wf props w → practice w = Some m →
  showOverlay (state m) = true → buttons_bubble props = false →
  step random props fuel w (ClickButton ButtonNext)
  = step random props fuel w (KeyDown "ArrowRight").
Proof.
  intros Hwf Hm Hshown Hbubble.
  destruct (step_KeyDown fuel w m "ArrowRight" Hwf Hm) as (cl & Hcl & ->).
  pose proof Hwf as [_ Hwf']. rewrite Hm in Hwf'. destruct Hwf' as (Hin & _).
  unfold step, run_handler. rewrite Hm, Hshown. f_equal.
  unfold onClick. rewrite Hbubble, outcome_bind_pair.
  rewrite handleKeyPress_ArrowRight, !next_agrees; done.
Qed.

(** C2: the right-arrow key runs [next].  When the position is the last
    one of the order, the order grows by what [generateRandomOrder]
    returns for the number of images and the position moves into the new
    part; otherwise the order stays and only the position moves, by one.
    Either way the tick counter is 0 afterwards. *)
Theorem next_extends_or_increments fuel w m :
  reachable random props w → practice w = Some m →
  (exhausted (state m) →
     enough_draws random (random_calls (browser w)) N fuel) →
  ∃ w' m', step random props fuel w (KeyDown "ArrowRight") = Returned w'
    ∧ practice w' = Some m'
    ∧ counter (state m') = 0
    ∧ orderIndex (state m') = orderIndex (state m) + 1
    ∧ orderIndex (state m') < length (imageOrder (state m'))
    ∧ pause (state m') = pause (state m)
    ∧ mute (state m') = mute (state m)
    ∧ showOverlay (state m') = showOverlay (state m)
    ∧ (exhausted (state m) →
         ∃ chunk t',
           generateRandomOrder fuel random (random_calls (browser w)) N
             = Returned (chunk, t')
           ∧ imageOrder (state m') = imageOrder (state m) ++ chunk
           ∧ length (imageOrder (state m)) ≤ orderIndex (state m'))
    ∧ (¬ exhausted (state m) →
         imageOrder (state m') = imageOrder (state m)
         ∧ random_calls (browser w') = random_calls (browser w)).
Proof.
  intros Hwf%reachable_wf Hm Hdraws.
  pose proof Hwf as [_ Hwf']. rewrite Hm in Hwf'.
  destruct Hwf' as (Hin & _).
  destruct (next_returns fuel (state m) (state m) (random_calls (browser w)))
    as (st' & t' & Hnext & Hc & Hoi & Hp & Hmu & Hov & Hex & Hnex); try done.
  destruct (step_KeyDown_spec fuel w m "ArrowRight" st' t' Hwf Hm)
    as (w' & m' & Hstep & Hwf' & Hm' & Hst & Ht & _).
  { intros cl Hcl. rewrite handleKeyPress_ArrowRight, <- Hnext.
    rewrite !next_agrees; done. }
  destruct Hwf' as [_ Hwf']. rewrite Hm' in Hwf'.
  destruct Hwf' as ([Hlt _] & _).
  exists w', m'. rewrite Hst in *. simpl in *. split_and!; try done.
  - intros Hlast. destruct (Hex Hlast) as (chunk & Hgen & Hio).
    exists chunk, t'. unfold exhausted in Hlast. split_and!; try done. lia.
  - intros Hnot. destruct (Hnex Hnot) as [Hio ->]. done.
Qed.

(** *** The clock *)

Lemma setCounter_counter st : setCounter (counter st) st = st.
Proof. by destruct st. Qed.

(** A tick below the full count adds one and touches nothing else. *)
Lemma tick_increments fuel w m :
  wf props w → practice w = Some m → pause (state m) = false →
  Qle_bool (TICKS_PER_SLIDE props) (inject_Z (Z.of_nat (counter (state m))))
    = false →
  step random props fuel w Tick =
    Returned {| browser := browser w;
                practice := Some (rendered (setCounter (counter (state m) + 1)
                                              (state m)) m) |}.
Proof.
  intros Hwf Hm Hpause Hbelow.
  destruct (step_Tick_running fuel w m Hwf Hm Hpause) as (cl & Hcl & ->).
  pose proof Hwf as [_ Hwf']. rewrite Hm in Hwf'. destruct Hwf' as (Hin & _).
  destruct (run_handler_spec (on_interval random props) fuel cl w m
              (setCounter (counter (state m) + 1) (state m))
              (random_calls (browser w)) Hwf Hm)
    as (w' & m' & -> & _ & _ & _ & _ & Hsame).
  - unfold on_interval. by rewrite Hbelow.
  - apply (set_flags_preserves _ _ (setCounter _)); [by intros []|].
    by apply preserves_refl.
  - rewrite (Hsame eq_refl), set_random_calls_id. done.
Qed.

(** A tick at the full count is a call of [next]: it does what the
    right-arrow key does. *)
Lemma tick_advances fuel w m :
  wf props w → practice w = Some m → pause (state m) = false →
  Qle_bool (TICKS_PER_SLIDE props) (inject_Z (Z.of_nat (counter (state m))))
    = true →
  step random props fuel w Tick
  = step random props fuel w (KeyDown "ArrowRight").
Proof.
  intros Hwf Hm Hpause Hfull. unfold step.
  pose proof Hwf as [_ Hwf']. rewrite Hm in Hwf'.
  destruct Hwf' as (Hin & _ & _ & _ & _ & _ & cl & Hcl & Hkey & Htimer).
  destruct (eff_timer m) as [timer|]; destruct Htimer as [? Htimers];
    [|congruence].
  rewrite Hkey, Htimers. simpl. rewrite Hkey, Htimers. simpl.
  rewrite !decide_True by apply list_elem_of_here.
  f_equal. unfold run_handler. rewrite Hm. f_equal.
  rewrite handleKeyPress_ArrowRight. unfold on_interval. rewrite Hfull.
  destruct (next random props fuel cl (state m) (random_calls (browser w)))
    as [[st' t']| |] eqn:Hnext; try done.
  apply next_preserves in Hnext as (_ & _ & Hzero); [|done..].
  simpl. by rewrite <- Hzero, setCounter_counter.
Qed.

(** What such a tick leaves behind. *)
Lemma tick_full_spec fuel w m :
  wf props w → practice w = Some m → pause (state m) = false →
  Qle_bool (TICKS_PER_SLIDE props) (inject_Z (Z.of_nat (counter (state m))))
    = true →
  (exhausted (state m) →
     enough_draws random (random_calls (browser w)) N fuel) →
  ∃ w' m', step random props fuel w Tick = Returned w'
    ∧ practice w' = Some m'
    ∧ orderIndex (state m') = orderIndex (state m) + 1
    ∧ counter (state m') = 0.
Proof.
  intros Hwf Hm Hpause Hfull Hdraws.
  destruct (step_Tick_running fuel w m Hwf Hm Hpause) as (cl & Hcl & ->).
  pose proof Hwf as [_ Hwf']. rewrite Hm in Hwf'. destruct Hwf' as (Hin & _).
  destruct (next_returns fuel cl (state m) (random_calls (browser w)))
    as (st' & t' & Hnext & Hc & Hoi & _); try done.
  assert (Hrun : on_interval random props fuel cl (state m)
                   (random_calls (browser w))
                 = Returned (setCounter 0 st', t')).
  { unfold on_interval. by rewrite Hfull, Hnext. }
  destruct (run_handler_spec (on_interval random props) fuel cl w m
              (setCounter 0 st') t' Hwf Hm Hrun)
    as (w' & m' & Hstep & _ & Hm' & Hst & _).
  { by eapply on_interval_preserves. }
  exists w', m'. rewrite Hst. by split_and!.
Qed.

Lemma full_at_3000 c :
  (timeMS props == 30000)%Q →
  Qle_bool (TICKS_PER_SLIDE props) (inject_Z (Z.of_nat c))
  = bool_decide (3000 ≤ c).
Proof.
  intros Htime. apply eq_true_iff_eq.
  rewrite Qle_bool_iff, bool_decide_eq_true. unfold TICKS_PER_SLIDE.
  rewrite Htime. unfold Qle, Qdiv, Qinv, Qmult, inject_Z, INTERVAL_MS.
  simpl. lia.
Qed.

(** With thirty seconds a slide, [n] ticks that stay within 3000 only
    count. *)
Lemma ticks_count fuel n : ∀ w m,
  (timeMS props == 30000)%Q →
  wf props w → practice w = Some m → pause (state m) = false →
  counter (state m) + n ≤ 3000 →
  run random props fuel w (repeat Tick n) =
    Returned {| browser := browser w;
                practice := Some (rendered (setCounter (counter (state m) + n)
                                              (state m)) m) |}.
Proof.
  induction n as [|n IH]; intros w m Htime Hwf Hm Hpause Hle.
  - rewrite Nat.add_0_r, setCounter_counter. simpl.
    destruct w as [b p], m. simpl in *. by subst.
  - change (repeat Tick (S n)) with (Tick :: repeat Tick n).
    rewrite run_cons.
    pose proof (tick_increments fuel w m Hwf Hm Hpause) as Htick.
    rewrite full_at_3000, bool_decide_eq_false in Htick by done.
    specialize (Htick ltac:(lia)).
    pose proof (step_wf _ _ _ _ Hwf Htick) as Hwf1.
    rewrite Htick. simpl.
    erewrite IH; try done; [|simpl; lia].
    unfold rendered, setCounter. simpl.
    by replace (counter (state m) + S n) with (counter (state m) + 1 + n)
      by lia.
Qed.

Lemma run_wf fuel events : ∀ w w',
  wf props w → run random props fuel w events = Returned w' → wf props w'.
Proof.
  induction events as [|e events IH]; intros w w' Hwf; [by intros [= <-]|].
  rewrite run_cons. intros (w1 & Hstep & Hrun)%outcome_bind_Returned.
  eauto using step_wf.
Qed.

(** C3, as the code has it: a tick below the full count adds one to the
    tick counter; a tick at the full count does what the right-arrow key
    does, so the position moves on by one and the tick counter is 0.
    With thirty seconds a slide the full count is 3000: after 3000 ticks
    from 0 the tick counter is 3000 and the position has not moved, and
    it is the tick after these, the 3001st, that moves the position and
    sets the tick counter to 0. *)
Theorem clock_tick_contract fuel w m :
  reachable random props w → practice w = Some m →
  pause (state m) = false →
  (exhausted (state m) →
     enough_draws random (random_calls (browser w)) N fuel) →
  let full := Qle_bool (TICKS_PER_SLIDE props)
                (inject_Z (Z.of_nat (counter (state m)))) in
  (full = false →
     ∃ w' m', step random props fuel w Tick = Returned w'
       ∧ practice w' = Some m'
       ∧ state m' = setCounter (counter (state m) + 1) (state m))
  ∧ (full = true →
     ∃ w' m', step random props fuel w Tick = Returned w'
       ∧ step random props fuel w Tick
         = step random props fuel w (KeyDown "ArrowRight")
       ∧ practice w' = Some m'
       ∧ orderIndex (state m') = orderIndex (state m) + 1
       ∧ counter (state m') = 0)
  ∧ ((timeMS props == 30000)%Q → counter (state m) = 0 →
     (∃ w1 m1, run random props fuel w (repeat Tick 3000) = Returned w1
        ∧ practice w1 = Some m1
        ∧ orderIndex (state m1) = orderIndex (state m)
        ∧ counter (state m1) = 3000)
     ∧ (∃ w2 m2, run random props fuel w (repeat Tick 3001) = Returned w2
        ∧ practice w2 = Some m2
        ∧ orderIndex (state m2) = orderIndex (state m) + 1
        ∧ counter (state m2) = 0)).
Proof.
  intros Hwf%reachable_wf Hm Hpause Hdraws full. split_and!.
  - intros Hbelow.
    pose proof (tick_increments fuel w m Hwf Hm Hpause Hbelow) as Htick.
    eexists _, _. split; [exact Htick|done].
  - intros Hfull.
    destruct (tick_full_spec fuel w m Hwf Hm Hpause Hfull Hdraws)
      as (w' & m' & Hstep & Hm' & Hoi & Hc).
    exists w', m'. split_and!; try done.
    by apply (tick_advances fuel w m).
  - intros Htime Hzero.
    pose proof (ticks_count fuel 3000 w m Htime Hwf Hm Hpause ltac:(lia))
      as Hrun.
    rewrite Hzero in Hrun. split.
    { eexists _, _. split; [exact Hrun|]. done. }
    set (m1 := rendered (setCounter (0 + 3000) (state m)) m) in *.
    set (w1 := {| browser := browser w; practice := Some m1 |}) in *.
    assert (Hwf1 : wf props w1) by by eapply run_wf.
    assert (Hfull : Qle_bool (TICKS_PER_SLIDE props)
                      (inject_Z (Z.of_nat (counter (state m1)))) = true).
    { unfold m1. simpl. by rewrite full_at_3000. }
    assert (Hlast : run random props fuel w (repeat Tick 3001)
                    = step random props fuel w1 Tick).
    { change (repeat Tick 3001) with (Tick :: repeat Tick 3000).
      rewrite repeat_cons, run_app, Hrun.
      exact (run_one fuel w1 Tick). }
    destruct (tick_full_spec fuel w1 m1 Hwf1 eq_refl Hpause Hfull)
      as (w2 & m2 & Hstep & Hm2 & Hoi & Hc); [done|].
    exists w2, m2. rewrite Hlast. done.
Qed.

(** *** Object URLs and teardown *)


Lemma times_revoked_0 u b : u ∉ urls_revoked b → times_revoked u b = 0.
Proof.
  unfold times_revoked. induction (urls_revoked b) as [|v l IH]; [done|].
  intros [Hne Hl]%not_elem_of_cons.
  rewrite filter_cons_False by congruence. auto.
Qed.

(** C6: unmounting runs the cleanup of the effect once.  Afterwards no
    timer runs and no key listener is registered, and the object URL that
    was on display, live and never revoked before, is no longer live and
    has been revoked exactly once.  The exit button of the overlay does
    the same as the parent. *)
Theorem unmount_teardown fuel w m :
  reachable random props w → practice w = Some m →
  ∃ w', step random props fuel w Unmount = Returned w'
    ∧ browser w' = cleanup m (browser w)
    ∧ practice w' = None
    ∧ timers (browser w') = []
    ∧ keydown (browser w') = []
    ∧ (currentImageUrl (state m) ∈ urls_live (browser w))
    ∧ times_revoked (currentImageUrl (state m)) (browser w) = 0
    ∧ (currentImageUrl (state m) ∉ urls_live (browser w'))
    ∧ times_revoked (currentImageUrl (state m)) (browser w') = 1
    ∧ (showOverlay (state m) = true →
         step random props fuel w (ClickButton ButtonExit)
         = step random props fuel w Unmount).
Proof.
  intros Hwf%reachable_wf Hm.
  destruct (cleanup_spec w m (random_calls (browser w)) Hwf Hm)
    as (url0 & Hlive & Hlt0 & _ & Hclean).
  rewrite set_random_calls_id in Hclean.
  destruct Hwf as [_ Hwf]. rewrite Hm in Hwf.
  destruct Hwf as (_ & _ & Hcur & Hnew & _).
  exists {| browser := cleanup m (browser w); practice := None |}.
  unfold step, unmount. rewrite Hm, Hclean, Hcur, Hlive. simpl.
  split_and!; try done.
  - apply list_elem_of_here.
  - by apply times_revoked_0.
  - intros ?%list_elem_of_singleton. lia.
  - unfold times_revoked. simpl. rewrite filter_cons_True by done.
    simpl. f_equal. by apply times_revoked_0.
  - by intros ->.
Qed.

Lemma run_reachable fuel events : ∀ w w',
  reachable random props w →
  run random props fuel w events = Returned w' → reachable random props w'.
Proof.
  induction events as [|e events IH]; intros w w' Hw; [by intros [= <-]|].
  rewrite run_cons. intros (w1 & Hstep & Hrun)%outcome_bind_Returned.
  eauto using reachable_step.
Qed.

End Session.

(** ** The claims on concrete sessions *)

Lemma rnd_zero_in_unit_interval : in_unit_interval rnd_zero.
Proof. intros t. by split. Qed.

Lemma rnd_cycle_in_unit_interval : in_unit_interval rnd_cycle.
Proof.
  intros t. pose proof (Nat.mod_upper_bound t 100).
  unfold rnd_cycle, Qle, Qlt. simpl. lia.
Qed.

Lemma world3_reachable : reachable rnd_zero props3 world3.
Proof. by apply (reachable_mount _ _ 0 0). Qed.

Lemma world3_last_reachable : reachable rnd_zero props3 world3_last.
Proof.
  apply (run_reachable rnd_zero props3 0
           [KeyDown "ArrowRight"; KeyDown "ArrowRight"] world3);
    [apply world3_reachable | by vm_compute].
Qed.

Lemma world3_500_reachable : reachable rnd_zero props3 world3_500.
Proof.
  apply (run_reachable rnd_zero props3 0 (repeat Tick 500) world3);
    [apply world3_reachable | by vm_compute].
Qed.

(** C1 on a folder of one hundred images, the sampling branch. *)
Lemma generateRandomOrder_indices_witness :
  in_unit_interval rnd_cycle ∧ enough_draws rnd_cycle 0 100 50 ∧ 1 ≤ 100
  ∧ ∃ l t', generateRandomOrder 50 rnd_cycle 0 100 = Returned (l, t')
      ∧ Forall (λ x, 0 ≤ x ∧ x < 100) l
      ∧ NoDup l
      ∧ 1 ≤ length l ∧ length l ≤ Nat.min 50 100.
Proof.
  assert (H1 : in_unit_interval rnd_cycle) by apply rnd_cycle_in_unit_interval.
  assert (H2 : enough_draws rnd_cycle 0 100 50).
  { right. vm_compute. lia. }
  assert (H3 : 1 ≤ 100) by lia.
  refine (conj H1 (conj H2 (conj H3 _))).
  exact (generateRandomOrder_indices rnd_cycle 50 0 100 H1 H2 H3).
Defined.

(** C10 on a folder of three images, the shuffling branch. *)
Lemma generateRandomOrder_length_witness :
  in_unit_interval rnd_cycle ∧ enough_draws rnd_cycle 0 3 0 ∧ 1 ≤ 3
  ∧ ∃ l t', generateRandomOrder 0 rnd_cycle 0 3 = Returned (l, t')
      ∧ length l = Nat.min 50 3.
Proof.
  assert (H1 : in_unit_interval rnd_cycle) by apply rnd_cycle_in_unit_interval.
  assert (H2 : enough_draws rnd_cycle 0 3 0).
  { left. vm_compute. reflexivity. }
  assert (H3 : 1 ≤ 3) by lia.
  refine (conj H1 (conj H2 (conj H3 _))).
  exact (generateRandomOrder_length rnd_cycle 0 0 3 H1 H2 H3).
Defined.

(** C2 where the first order of three images is used up. *)
Lemma next_extends_or_increments_witness :
  reachable rnd_zero props3 world3_last
  ∧ practice world3_last = Some (mounted_of world3_last)
  ∧ exhausted (state (mounted_of world3_last))
  ∧ enough_draws rnd_zero (random_calls (browser world3_last)) 3 0
  ∧ ∃ w' m',
      step rnd_zero props3 0 world3_last (KeyDown "ArrowRight") = Returned w'
      ∧ practice w' = Some m'
      ∧ counter (state m') = 0
      ∧ orderIndex (state m') = 3
      ∧ orderIndex (state m') < length (imageOrder (state m'))
      ∧ ∃ chunk, imageOrder (state m') = [0; 1; 2] ++ chunk.
Proof.
  assert (H1 : reachable rnd_zero props3 world3_last)
    by apply world3_last_reachable.
  assert (H2 : practice world3_last = Some (mounted_of world3_last))
    by reflexivity.
  assert (H3 : exhausted (state (mounted_of world3_last))) by reflexivity.
  assert (H4 : enough_draws rnd_zero (random_calls (browser world3_last)) 3 0).
  { left. vm_compute. reflexivity. }
  refine (conj H1 (conj H2 (conj H3 (conj H4 _)))).
  destruct (next_extends_or_increments rnd_zero props3
              rnd_zero_in_unit_interval 0 world3_last
              (mounted_of world3_last) H1 H2 (λ _, H4))
    as (w' & m' & Hstep & Hm' & Hc & Hoi & Hlt & _ & _ & _ & Hex & _).
  destruct (Hex H3) as (chunk & t' & _ & Hio & _).
  exists w', m'. split_and!; try done. by exists chunk.
Defined.

(** C3 as stated fails: three images, thirty seconds a slide, 3000 ticks
    after mounting.  The position is still 0 and the tick counter is 3000;
    the claim has position 1 and tick counter 0. *)
Lemma ticks_3000_counterexample :
  position_and_ticks (Returned world3) = Some (0, 0)
  ∧ position_and_ticks (run rnd_zero props3 0 world3 (repeat Tick 3000))
    = Some (0, 3000)
  ∧ position_and_ticks (run rnd_zero props3 0 world3 (repeat Tick 3000))
    ≠ Some (1, 0).
Proof.
  assert (position_and_ticks (run rnd_zero props3 0 world3 (repeat Tick 3000))
          = Some (0, 3000)) as Hrun by (vm_compute; reflexivity).
  rewrite Hrun. split_and!; [reflexivity..|discriminate].
Qed.

(** C3, as the code has it, on the same session. *)
Lemma clock_tick_contract_witness :
  reachable rnd_zero props3 world3
  ∧ practice world3 = Some (mounted_of world3)
  ∧ pause (state (mounted_of world3)) = false
  ∧ (∃ w1 m1, run rnd_zero props3 0 world3 (repeat Tick 3000) = Returned w1
       ∧ practice w1 = Some m1
       ∧ orderIndex (state m1) = 0 ∧ counter (state m1) = 3000)
  ∧ (∃ w2 m2, run rnd_zero props3 0 world3 (repeat Tick 3001) = Returned w2
       ∧ practice w2 = Some m2
       ∧ orderIndex (state m2) = 0 + 1 ∧ counter (state m2) = 0).
Proof.
  assert (H1 : reachable rnd_zero props3 world3) by apply world3_reachable.
  assert (H2 : practice world3 = Some (mounted_of world3)) by reflexivity.
  assert (H3 : pause (state (mounted_of world3)) = false) by reflexivity.
  assert (H4 : enough_draws rnd_zero (random_calls (browser world3)) 3 0).
  { left. vm_compute. reflexivity. }
  refine (conj H1 (conj H2 (conj H3 _))).
  destruct (clock_tick_contract rnd_zero props3 rnd_zero_in_unit_interval
              0 world3 (mounted_of world3) H1 H2 H3 (λ _, H4))
    as (_ & _ & Hticks).
  exact (Hticks ltac:(reflexivity) eq_refl).
Defined.

(** C4 at the first slide. *)
Lemma prev_at_start_or_back_witness :
  reachable rnd_zero props3 world3
  ∧ practice world3 = Some (mounted_of world3)
  ∧ step rnd_zero props3 0 world3 (KeyDown "ArrowLeft") = Returned world3.
Proof.
  assert (H1 : reachable rnd_zero props3 world3) by apply world3_reachable.
  assert (H2 : practice world3 = Some (mounted_of world3)) by reflexivity.
  refine (conj H1 (conj H2 _)).
  destruct (prev_at_start_or_back rnd_zero props3 rnd_zero_in_unit_interval
              0 world3 (mounted_of world3) H1 H2)
    as (w' & m' & Hstep & _ & Hzero & _).
  destruct (Hzero eq_refl) as [-> _]. exact Hstep.
Defined.

(** C7 on the session that has counted 500 ticks. *)
Lemma togglePause_freezes_counter_witness :
  reachable rnd_zero props3 world3_500
  ∧ practice world3_500 = Some (mounted_of world3_500)
  ∧ ∃ w' m', step rnd_zero props3 0 world3_500 (KeyDown " ") = Returned w'
      ∧ practice w' = Some m'
      ∧ pause (state m') = true
      ∧ orderIndex (state m') = 0
      ∧ counter (state m') = 500
      ∧ ∀ n, run rnd_zero props3 0 w' (repeat Tick n) = Returned w'.
Proof.
  assert (H1 : reachable rnd_zero props3 world3_500)
    by apply world3_500_reachable.
  assert (H2 : practice world3_500 = Some (mounted_of world3_500))
    by reflexivity.
  refine (conj H1 (conj H2 _)).
  destruct (togglePause_freezes_counter rnd_zero props3
              rnd_zero_in_unit_interval 0 world3_500 (mounted_of world3_500)
              H1 H2)
    as (w' & m' & Hstep & Hm' & Hp & Hoi & Hc & _ & _ & _ & Hticks).
  exists w', m'. split_and!; try done. by apply Hticks.
Defined.

(** C6 after two slides. *)
Lemma unmount_teardown_witness :
  reachable rnd_zero props3 world3_last
  ∧ practice world3_last = Some (mounted_of world3_last)
  ∧ ∃ w', step rnd_zero props3 0 world3_last Unmount = Returned w'
      ∧ practice w' = None
      ∧ timers (browser w') = []
      ∧ keydown (browser w') = []
      ∧ times_revoked 7 (browser world3_last) = 0
      ∧ times_revoked 7 (browser w') = 1.
Proof.
  assert (H1 : reachable rnd_zero props3 world3_last)
    by apply world3_last_reachable.
  assert (H2 : practice world3_last = Some (mounted_of world3_last))
    by reflexivity.
  refine (conj H1 (conj H2 _)).
  destruct (unmount_teardown rnd_zero props3 rnd_zero_in_unit_interval
              0 world3_last (mounted_of world3_last) H1 H2)
    as (w' & Hstep & _ & Hm' & Ht & Hk & _ & Hr0 & _ & Hr1 & _).
  exists w'. split_and!; done.
Defined.

(** C5 fails on the code: right after mounting two object URLs are live,
    number 0 from the initial state and number 1 from the effect.  A key
    press replaces the second one only, and after unmounting number 0 is
    still live: nothing ever revokes it. *)
Theorem initial_url_is_never_revoked :
  live_urls (Returned world3) = Some [1; 0]
  ∧ live_urls (step rnd_zero props3 0 world3 (KeyDown "ArrowRight"))
    = Some [4; 0]
  ∧ live_urls (run rnd_zero props3 0 world3 [KeyDown "ArrowRight"; Unmount])
    = Some [0].
Proof. by vm_compute. Qed.

(** C9 fails on the code: the image fills the viewport, so the window keeps
    its size of 1616 by 1240, and still it is moved from (100, 50) to
    (92, 30): its centre goes from (908, 670) to (900, 650), half the
    decoration up and to the left. *)
Theorem resizeWindow_moves_the_centre :
  resizeWindow image_800_600 1600 1200 window_1600_1200
    = [resizeTo 1616 1240; moveTo 92 30]
  ∧ centre window_1600_1200 = (908%float, 670%float)
  ∧ centre (foldl grant window_1600_1200
              (resizeWindow image_800_600 1600 1200 window_1600_1200))
    = (900%float, 650%float).
Proof. by vm_compute. Qed.

(** * Further properties of the code *)

(** ** [generateRandomOrder]: which branch, how many draws, which result *)

(** Below one hundred images the function shuffles: it returns whatever the
    random source and with no fuel at all, after exactly one draw per
    returned index. *)
Theorem generateRandomOrder_small random fuel t len :
  in_unit_interval random → 1 ≤ len → len < 100 →
  ∃ l, generateRandomOrder fuel random t len
       = Returned (l, t + Nat.min 50 len)
    ∧ length l = Nat.min 50 len.
Proof.
  intros Hr Hpos Hsmall. unfold generateRandomOrder.
  assert (Hdense : gt_half (Nat.min MAX_RANDOM_LEN len) len = true).
  { apply gt_half_spec. unfold MAX_RANDOM_LEN. lia. }
  rewrite Hdense.
  pose proof (shuffle_loop_spec random len (Nat.min MAX_RANDOM_LEN len) 0 t
                (seq 0 len)) as (Hlen & _ & _ & Ht).
  destruct (shuffle_loop random len (Nat.min MAX_RANDOM_LEN len) 0 t
              (seq 0 len)) as [order t1].
  cbn [fst snd] in *. subst t1. rewrite length_seq in Hlen.
  eexists. split; [reflexivity|].
  rewrite length_take. unfold MAX_RANDOM_LEN. lia.
Qed.

(** With at most fifty images the returned array holds every index exactly
    once: it is a permutation of [0 .. len - 1]. *)
Theorem generateRandomOrder_permutation random fuel t len l t' :
  in_unit_interval random → len ≤ 50 →
  generateRandomOrder fuel random t len = Returned (l, t') →
  l ≡ₚ seq 0 len.
Proof.
  intros Hr Hlen Hrun.
  apply generateRandomOrder_sound in Hrun as (Hl & Hnd & Hall); [|done].
  unfold MAX_RANDOM_LEN in Hl.
  apply submseteq_length_Permutation.
  - apply NoDup_submseteq; [done|]. intros x Hx.
    rewrite Forall_forall in Hall. apply elem_of_seq. specialize (Hall x Hx).
    simpl in Hall. lia.
  - rewrite length_seq. lia.
Qed.

Lemma draws_length_mono random len n : ∀ t result,
  length result ≤ length (draws random len t n result).
Proof.
  induction n as [|n IH]; intros t result; simpl; [done|].
  etrans; [|apply IH]. apply set_add_length.
Qed.

Lemma sample_loop_spins random len k fuel : ∀ t result,
  length (draws random len t fuel result) < k →
  sample_loop fuel random len k t result = OutOfFuel.
Proof.
  induction fuel as [|fuel IH]; intros t result; simpl;
    destruct (Nat.ltb_spec (length result) k) as [Hlt|Hge]; intros Hk;
    try done; try lia.
  - by apply IH.
  - pose proof (draws_length_mono random len fuel (S t)
                  (set_add (random_floor random t len) result)).
    pose proof (set_add_length (random_floor random t len) result). lia.
Qed.

(** From one hundred images on the function samples, and whether it returns
    is up to the random source alone: within [fuel] draws it returns if
    these hit fifty different indices, and is still looping if not. *)
Theorem generateRandomOrder_sampling random fuel t len :
  100 ≤ len →
  (50 ≤ length (draws random len t fuel []) →
     ∃ l t', generateRandomOrder fuel random t len = Returned (l, t'))
  ∧ (length (draws random len t fuel []) < 50 →
     generateRandomOrder fuel random t len = OutOfFuel).
Proof.
  intros Hlen. unfold generateRandomOrder.
  assert (Hk : Nat.min MAX_RANDOM_LEN len = 50) by (unfold MAX_RANDOM_LEN; lia).
  assert (Hsparse : gt_half (Nat.min MAX_RANDOM_LEN len) len = false).
  { apply not_true_iff_false. rewrite gt_half_spec. lia. }
  rewrite Hsparse, Hk. split; intros Hdraws.
  - by apply sample_loop_total.
  - by apply sample_loop_spins.
Qed.

(** ** The session: what every reachable world satisfies *)

Lemma sample_loop_throws_not random len k fuel : ∀ t result e,
  sample_loop fuel random len k t result ≠ Thrown e.
Proof.
  induction fuel as [|fuel IH]; intros t result e; simpl;
    destruct (length result <? k); first [done | apply IH].
Qed.

Lemma generateRandomOrder_throws_not random fuel t len e :
  generateRandomOrder fuel random t len ≠ Thrown e.
Proof.
  unfold generateRandomOrder. destruct (gt_half _ _).
  - by destruct (shuffle_loop _ _ _ _ _ _).
  - apply sample_loop_throws_not.
Qed.

Section SessionFacts.
Context (random : random_source) (props : PracticeProps).
Hypothesis random_ok : in_unit_interval random.

Local Abbreviation N := (length (imageFiles props)).
Local Abbreviation wf_of := (reachable_wf random props random_ok).

Lemma wf_in_range w m :
  wf props w → practice w = Some m → in_range props (state m).
Proof. intros [_ Hwf] Hm. rewrite Hm in Hwf. by destruct Hwf as (? & _). Qed.

(** *** The handlers *)

Lemma next_throws_not fuel cl st t e :
  next random props fuel cl st t ≠ Thrown e.
Proof.
  unfold next. destruct (_ =? _)%Z; [|done].
  pose proof (generateRandomOrder_throws_not random fuel t N) as Hgen.
  destruct (generateRandomOrder fuel random t N) as [[chunk t']|e'|];
    first [done | by specialize (Hgen e')].
Qed.

Lemma handler_throws_not h fuel cl st t e :
  component_call random props h cl st → h fuel cl st t ≠ Thrown e.
Proof.
  intros [[-> _]|[(key & -> & _)|[(b & -> & _)|[-> _]]]].
  - unfold on_interval. destruct (Qle_bool _ _); [|done].
    pose proof (next_throws_not fuel cl st t) as Hnext.
    destruct (next random props fuel cl st t) as [[st1 t1]|e'|];
      first [done | by specialize (Hnext e')].
  - unfold handleKeyPress. destruct (decide (key = "ArrowRight")); [|done].
    pose proof (next_throws_not fuel cl st t) as Hnext.
    destruct (next random props fuel cl st t) as [[st1 t1]|e'|];
      first [done | by specialize (Hnext e')].
  - unfold onClick. destruct b; try done.
    pose proof (next_throws_not fuel cl st t) as Hnext.
    destruct (next random props fuel cl st t) as [[st1 t1]|e'|];
      first [done | by specialize (Hnext e')].
  - done.
Qed.

Lemma component_call_agrees h cl st :
  component_call random props h cl st → agrees cl st.
Proof.
  by intros [[_ ?]|[(key & _ & ?)|[(b & _ & ->)|[_ ->]]]].
Qed.

Lemma handler_preserves h fuel cl st t st' t' :
  component_call random props h cl st → in_range props st →
  h fuel cl st t = Returned (st', t') → preserves props st st'.
Proof.
  intros [[-> Hcl]|[(key & -> & Hcl)|[(b & -> & ->)|[-> ->]]]] Hin Hrun.
  - by eapply on_interval_preserves.
  - by eapply handleKeyPress_preserves.
  - by eapply onClick_preserves.
  - injection Hrun as <- <-.
    apply (set_flags_preserves _ _ _ (setShowOverlay _)); [by intros []|].
    by apply preserves_refl.
Qed.

(** What a handler does to the order: nothing, or one more chunk. *)
Lemma next_order fuel cl st t st' t' :
  agrees cl st → in_range props st →
  next random props fuel cl st t = Returned (st', t') →
  imageOrder st' = imageOrder st
  ∨ ∃ chunk, imageOrder st' = imageOrder st ++ chunk ∧ is_chunk props chunk.
Proof.
  intros Hcl Hin. rewrite next_agrees by done. case_decide.
  - intros ([chunk t1] & Hgen & [= <- <-])%outcome_bind_Returned.
    apply generateRandomOrder_sound in Hgen; [|done].
    right. by exists chunk.
  - intros [= <- <-]. by left.
Qed.

Lemma handler_order h fuel cl st t st' t' :
  component_call random props h cl st → in_range props st →
  h fuel cl st t = Returned (st', t') →
  imageOrder st' = imageOrder st
  ∨ ∃ chunk, imageOrder st' = imageOrder st ++ chunk ∧ is_chunk props chunk.
Proof.
  intros Hcall Hin. pose proof (component_call_agrees _ _ _ Hcall) as Hcl.
  destruct Hcall as [[-> _]|[(key & -> & _)|[(b & -> & _)|[-> _]]]].
  - unfold on_interval. destruct (Qle_bool _ _).
    + intros ([st1 t1] & Hnext & [= <- <-])%outcome_bind_Returned.
      simpl. by eapply next_order.
    + intros [= <- <-]. by left.
  - unfold handleKeyPress.
    intros ([st1 t1] & Hnext & [= <- <-])%outcome_bind_Returned.
    assert (Hst1 : imageOrder st1 = imageOrder st
              ∨ ∃ chunk, imageOrder st1 = imageOrder st ++ chunk
                         ∧ is_chunk props chunk).
    { destruct (decide (key = "ArrowRight")); [by eapply next_order|].
      injection Hnext as <- <-. by left. }
    assert (imageOrder (prev cl st1) = imageOrder st1) as Hprev.
    { unfold prev. by destruct (_ =? _). }
    by repeat case_decide; simpl; rewrite ?Hprev.
  - unfold onClick.
    intros ([st1 t1] & Hb & [= <- <-])%outcome_bind_Returned.
    assert (imageOrder (prev cl st) = imageOrder st) as Hprev.
    { unfold prev. by destruct (_ =? _). }
    assert (Hst1 : imageOrder st1 = imageOrder st
              ∨ ∃ chunk, imageOrder st1 = imageOrder st ++ chunk
                         ∧ is_chunk props chunk).
    { destruct b; cbv [mret outcome_ret] in Hb; simplify_eq;
        try (by left). by eapply next_order. }
    by destruct (buttons_bubble props).
  - intros [= <- <-]. by left.
Qed.

(** *** The events *)

(** An event on a mounted component unmounts it, is ignored, or runs one
    handler of the component. *)
Lemma step_cases fuel w m e :
  wf props w → practice w = Some m →
  step random props fuel w e = Returned (unmount w)
  ∨ step random props fuel w e = Returned w
  ∨ ∃ h cl, component_call random props h cl (state m)
      ∧ step random props fuel w e = run_handler props h fuel cl w.
Proof.
  intros Hwf Hm. destruct e as [|key|b| |].
  - destruct (pause (state m)) eqn:Hpause.
    + right; left. by eapply step_Tick_paused.
    + destruct (step_Tick_running random props fuel w m) as (cl & Hcl & ->);
        [done..|].
      right; right. exists (on_interval random props), cl.
      split; [by left|done].
  - destruct (step_KeyDown random props fuel w m key) as (cl & Hcl & ->);
      [done..|].
    right; right. exists (handleKeyPress random props key), cl.
    split; [right; left; eauto|done].
  - unfold step. rewrite Hm. destruct (showOverlay (state m)); [|by right; left].
    destruct b; try (by left);
      right; right; eexists _, (state m); (split; [|done]);
      right; right; left; eauto.
  - unfold step. rewrite Hm. right; right.
    exists onClickImage, (state m). split; [|done]. by repeat right.
  - by left.
Qed.

(** One handler call: it does not return, by lack of fuel, or the render
    after it leaves a well-formed world with the state that it wrote. *)
Lemma run_handler_cases h fuel cl w m :
  wf props w → practice w = Some m →
  component_call random props h cl (state m) →
  run_handler props h fuel cl w = OutOfFuel
  ∨ ∃ st' t' w' m',
      h fuel cl (state m) (random_calls (browser w)) = Returned (st', t')
      ∧ run_handler props h fuel cl w = Returned w'
      ∧ wf props w' ∧ practice w' = Some m'
      ∧ state m' = setCurrentImageUrl (eff_url m') st'
      ∧ ((orderIndex st', pause st')
           = (orderIndex (state m), pause (state m)) →
         w' = {| browser := set_random_calls t' (browser w);
                 practice := Some (rendered st' m) |}).
Proof.
  intros Hwf Hm Hcall.
  pose proof (λ e, handler_throws_not h fuel cl (state m)
                     (random_calls (browser w)) e Hcall) as Hthrow.
  destruct (h fuel cl (state m) (random_calls (browser w)))
    as [[st' t']|e|] eqn:Hh.
  - right.
    destruct (run_handler_spec props h fuel cl w m st' t')
      as (w' & m' & Hrun & Hwf' & Hm' & Hst & _ & Hsame); try done.
    { eapply handler_preserves; eauto using wf_in_range. }
    by exists st', t', w', m'.
  - by destruct (Hthrow e).
  - left. unfold run_handler. by rewrite Hm, Hh.
Qed.

Lemma run_unmounted fuel events : ∀ w,
  wf props w → practice w = None →
  run random props fuel w events = Returned w.
Proof.
  induction events as [|e events IH]; intros w Hwf Hm; [done|].
  rewrite run_cons, step_unmounted by done. by apply IH.
Qed.



(** What the first render leaves behind. *)
Lemma mount_inv fuel b w :
  mount random props fuel b = Returned w →
  ∃ order t m,
    generateRandomOrder fuel random (random_calls b) N = Returned (order, t)
    ∧ practice w = Some m
    ∧ imageOrder (state m) = order ∧ orderIndex (state m) = 0
    ∧ counter (state m) = 0 ∧ pause (state m) = false
    ∧ mute (state m) = false ∧ showOverlay (state m) = false.
Proof.
  unfold mount.
  intros ([order t] & Hgen & Hrest)%outcome_bind_Returned.
  apply outcome_bind_Returned in Hrest as ([url b1] & Hurl & Heff).
  unfold effect in Heff.
  apply outcome_bind_Returned in Heff as ([url1 b2] & Hurl1 & Heff).
  simpl in Heff. injection Heff as <-.
  eexists _, _, _. split_and!; done.
Qed.


(** The order only ever grows at its end: whatever happens between two
    worlds of a session, the earlier order is a prefix of the later one. *)
Theorem order_is_append_only fuel events : ∀ w w' m m',
  reachable random props w → practice w = Some m →
  run random props fuel w events = Returned w' → practice w' = Some m' →
  imageOrder (state m) `prefix_of` imageOrder (state m').
Proof.
  induction events as [|e events IH]; intros w w' m m' Hreach Hm.
  - intros [= <-] Hm'. by assert (m' = m) as -> by congruence.
  - rewrite run_cons.
    intros (w1 & Hstep & Hrun)%outcome_bind_Returned Hm'.
    pose proof (wf_of _ Hreach) as Hwf.
    pose proof (reachable_step _ _ _ _ _ _ Hreach Hstep) as Hreach1.
    destruct (step_cases fuel w m e Hwf Hm)
      as [Heq|[Heq|(h & cl & Hcall & Heq)]]; rewrite Heq in Hstep.
    + injection Hstep as <-.
      rewrite run_unmounted in Hrun.
      * injection Hrun as <-. unfold unmount in Hm'. by rewrite Hm in Hm'.
      * by apply wf_of.
      * unfold unmount. by rewrite Hm.
    + injection Hstep as <-. by eapply IH.
    + destruct (run_handler_cases h fuel cl w m Hwf Hm Hcall)
        as [Hout|(st' & t' & w2 & m1 & Hh & Hrun1 & _ & Hm1 & Hst & _)];
        [congruence|].
      assert (w2 = w1) as -> by congruence.
      etrans; [|by eapply (IH w1 w' m1 m')].
      rewrite Hst. simpl.
      destruct (handler_order h fuel cl (state m) _ st' t' Hcall
                  (wf_in_range w m Hwf Hm) Hh)
        as [->|(chunk & -> & _)]; [done|]. by apply prefix_app_r.
Qed.

(** One key listener is registered, and one timer runs unless the
    slideshow is paused: a key press or a tick is never handled twice. *)
Theorem one_listener_one_timer w m :
  reachable random props w → practice w = Some m →
  length (keydown (browser w)) = 1
  ∧ length (timers (browser w)) = (if pause (state m) then 0 else 1).
Proof.
  intros Hwf Hm. apply wf_of in Hwf as [_ Hwf]. rewrite Hm in Hwf.
  destruct Hwf as (_ & _ & _ & _ & _ & _ & cl & _ & -> & Htimer).
  destruct (eff_timer m); destruct Htimer as [-> ->]; done.
Qed.

(** The closures of the key listener and of the timer are never stale:
    the order, the position and the pause flag they captured are the ones
    of the current state. *)
Theorem closures_never_stale w m :
  reachable random props w → practice w = Some m →
  Forall (λ registered, agrees registered.2 (state m))
    (keydown (browser w) ++ timers (browser w)).
Proof.
  intros Hwf Hm. apply wf_of in Hwf as [_ Hwf]. rewrite Hm in Hwf.
  destruct Hwf as (_ & _ & _ & _ & _ & _ & cl & Hcl & -> & Htimer).
  destruct (eff_timer m); destruct Htimer as [_ ->]; simpl;
    repeat (apply Forall_cons; split; [done|]); apply Forall_nil_2.
Qed.


(** *** Mounting *)

(** With at least one image, and a random source that lets the generator
    finish, mounting returns: the slideshow starts at position 0 with the
    tick counter at 0, running, with an order of [min 50 N] indices. *)
Theorem mount_returns fuel b :
  imageFiles props ≠ [] → enough_draws random (random_calls b) N fuel →
  ∃ w m, mount random props fuel b = Returned w
    ∧ practice w = Some m
    ∧ orderIndex (state m) = 0 ∧ counter (state m) = 0
    ∧ pause (state m) = false
    ∧ length (imageOrder (state m)) = Nat.min 50 N.
Proof.
  intros Hfiles Hdraws.
  assert (HN : 1 ≤ N) by (destruct (imageFiles props); simpl; [done|lia]).
  destruct (generateRandomOrder_total _ _ _ _ Hdraws) as (order & t & Hgen).
  pose proof (generateRandomOrder_sound _ _ _ _ _ _ random_ok Hgen)
    as (Hlen & _ & Hall).
  unfold MAX_RANDOM_LEN in Hlen.
  assert (∃ w, mount random props fuel b = Returned w) as [w Hmount].
  { unfold mount. rewrite Hgen. simpl.
    destruct (lookup_lt_is_Some_2 (imageFiles props) 0 HN) as [file ->].
    simpl. unfold effect.
    edestruct (in_range_file props) as [file1 ->]; [|simpl; eauto].
    split; simpl; [lia|done]. }
  pose proof Hmount as Hinv.
  apply mount_inv in Hinv
    as (order' & t' & m & Hgen' & Hm & Hio & Hoi & Hc & Hp & _).
  exists w, m. split_and!; try done. congruence.
Qed.

(** *** The overlay *)

(** The mute button flips [mute] and leaves the playback alone: order,
    position, tick counter, pause flag and the URL on display stay, and so
    does every resource of the browser; no effect runs. *)
Theorem mute_button_only_mutes fuel w m :
  reachable random props w → practice w = Some m →
  showOverlay (state m) = true →
  ∃ w' m', step random props fuel w (ClickButton ButtonMute) = Returned w'
    ∧ practice w' = Some m'
    ∧ browser w' = browser w
    ∧ mute (state m') = negb (mute (state m))
    ∧ imageOrder (state m') = imageOrder (state m)
    ∧ orderIndex (state m') = orderIndex (state m)
    ∧ counter (state m') = counter (state m)
    ∧ pause (state m') = pause (state m)
    ∧ currentImageUrl (state m') = currentImageUrl (state m).
Proof.
  intros Hwf Hm Hshown. apply wf_of in Hwf.
  pose proof (wf_in_range w m Hwf Hm) as Hin.
  unfold step. rewrite Hm, Hshown.
  set (st := state m).
  set (st' := if buttons_bubble props
              then setShowOverlay (negb (showOverlay st))
                     (setMute (negb (mute st)) st)
              else setMute (negb (mute st)) st).
  assert (Hh : onClick random props ButtonMute fuel st st
                 (random_calls (browser w))
               = Returned (st', random_calls (browser w))) by done.
  destruct (run_handler_spec props (onClick random props ButtonMute) fuel st
              w m st' _ Hwf Hm Hh)
    as (w' & m' & Hrun & _ & Hm' & _ & _ & Hsame).
  { by eapply onClick_preserves. }
  rewrite Hsame in Hm' by (unfold st'; by destruct (buttons_bubble props)).
  rewrite Hsame in Hrun by (unfold st'; by destruct (buttons_bubble props)).
  simpl in Hm'. injection Hm' as <-.
  eexists _, _. split; [exact Hrun|]. simpl.
  rewrite set_random_calls_id. split; [reflexivity|]. unfold st'.
  by destruct (buttons_bubble props).
Qed.



(** *** Forward and back *)

Lemma arrow_right_step fuel w m :
  wf props w → practice w = Some m →
  (exhausted (state m) →
     enough_draws random (random_calls (browser w)) N fuel) →
  ∃ w' m', step random props fuel w (KeyDown "ArrowRight") = Returned w'
    ∧ wf props w' ∧ practice w' = Some m'
    ∧ orderIndex (state m') = orderIndex (state m) + 1
    ∧ counter (state m') = 0
    ∧ imageOrder (state m) `prefix_of` imageOrder (state m').
Proof.
  intros Hwf Hm Hdraws. pose proof (wf_in_range w m Hwf Hm) as Hin.
  destruct (next_returns random props fuel (state m) (state m)
              (random_calls (browser w)))
    as (st' & t' & Hnext & Hc & Hoi & _ & _ & _ & Hex & Hnex); try done.
  destruct (step_KeyDown_spec random props random_ok fuel w m "ArrowRight"
              st' t' Hwf Hm)
    as (w' & m' & Hstep & Hwf' & Hm' & Hst & _).
  { intros cl Hcl. rewrite handleKeyPress_ArrowRight, <- Hnext.
    rewrite !next_agrees; done. }
  exists w', m'. rewrite Hst. simpl. split_and!; try done.
  destruct (decide (exhausted (state m))) as [Hlast|Hnot].
  - destruct (Hex Hlast) as (chunk & _ & ->). by apply prefix_app_r.
  - by destruct (Hnex Hnot) as [-> _].
Qed.

Lemma arrow_left_step fuel w m :
  wf props w → practice w = Some m → 0 < orderIndex (state m) →
  ∃ w' m', step random props fuel w (KeyDown "ArrowLeft") = Returned w'
    ∧ wf props w' ∧ practice w' = Some m'
    ∧ orderIndex (state m') = orderIndex (state m) - 1
    ∧ counter (state m') = 0
    ∧ imageOrder (state m') = imageOrder (state m).
Proof.
  intros Hwf Hm Hpos.
  destruct (step_KeyDown_spec random props random_ok fuel w m "ArrowLeft"
              (setCounter 0 (setOrderIndex (orderIndex (state m) - 1) (state m)))
              (random_calls (browser w)) Hwf Hm)
    as (w' & m' & Hstep & Hwf' & Hm' & Hst & _).
  { intros cl (_ & Hoi & _). rewrite handleKeyPress_ArrowLeft.
    unfold prev. rewrite Hoi.
    destruct (Nat.eqb_spec (orderIndex (state m)) 0); [lia|done]. }
  exists w', m'. rewrite Hst. by split_and!.
Qed.

(** Forward and then back shows the same image again: the position is the
    one before, the index found there is the one before, and the tick
    counter is 0. *)
Theorem forward_then_back fuel w m :
  reachable random props w → practice w = Some m →
  (exhausted (state m) →
     enough_draws random (random_calls (browser w)) N fuel) →
  ∃ w' m',
    run random props fuel w [KeyDown "ArrowRight"; KeyDown "ArrowLeft"]
      = Returned w'
    ∧ practice w' = Some m'
    ∧ orderIndex (state m') = orderIndex (state m)
    ∧ imageOrder (state m') !! orderIndex (state m')
      = imageOrder (state m) !! orderIndex (state m)
    ∧ counter (state m') = 0.
Proof.
  intros Hreach Hm Hdraws. pose proof (wf_of _ Hreach) as Hwf.
  pose proof (wf_in_range w m Hwf Hm) as [Hlt _].
  destruct (arrow_right_step fuel w m Hwf Hm Hdraws)
    as (w1 & m1 & Hstep1 & Hwf1 & Hm1 & Hoi1 & _ & Hpre).
  destruct (arrow_left_step fuel w1 m1 Hwf1 Hm1 ltac:(lia))
    as (w2 & m2 & Hstep2 & _ & Hm2 & Hoi2 & Hc2 & Hio2).
  exists w2, m2. rewrite run_cons, Hstep1.
  change (run random props fuel w1 [KeyDown "ArrowLeft"] = Returned w2 ∧
          practice w2 = Some m2 ∧
          orderIndex (state m2) = orderIndex (state m) ∧
          imageOrder (state m2) !! orderIndex (state m2)
          = imageOrder (state m) !! orderIndex (state m) ∧
          counter (state m2) = 0).
  rewrite run_one. split_and!; try done; [lia|].
  rewrite Hio2, Hoi2, Hoi1. replace (orderIndex (state m) + 1 - 1)
    with (orderIndex (state m)) by lia.
  destruct Hpre as [chunk ->]. by rewrite lookup_app_l.
Qed.

(** Below one hundred images the right-arrow key always works: [n]
    presses return, with no fuel at all, and move the position on by [n]. *)
Theorem arrow_right_n_times fuel n : ∀ w m,
  N < 100 → reachable random props w → practice w = Some m →
  ∃ w' m',
    run random props fuel w (repeat (KeyDown "ArrowRight") n) = Returned w'
    ∧ practice w' = Some m'
    ∧ orderIndex (state m') = orderIndex (state m) + n.
Proof.
  induction n as [|n IH]; intros w m Hsmall Hreach Hm.
  - exists w, m. by rewrite Nat.add_0_r.
  - pose proof (wf_of _ Hreach) as Hwf.
    pose proof (in_range_files props _ (wf_in_range w m Hwf Hm)) as HN.
    destruct (arrow_right_step fuel w m Hwf Hm)
      as (w1 & m1 & Hstep & _ & Hm1 & Hoi & _).
    { intros _. left. apply gt_half_spec. unfold MAX_RANDOM_LEN. lia. }
    destruct (IH w1 m1 Hsmall) as (w' & m' & Hrun & Hm' & Hoi'); [|done|].
    { by eapply reachable_step. }
    exists w', m'.
    change (repeat (KeyDown "ArrowRight") (S n))
      with (KeyDown "ArrowRight" :: repeat (KeyDown "ArrowRight") n).
    rewrite run_cons, Hstep. split_and!; try done. lia.
Qed.

(** *** Revoking *)

Lemma run_handler_revoked (h : handler) fuel cl w m w' :
  wf props w → practice w = Some m →
  run_handler props h fuel cl w = Returned w' →
  urls_revoked (browser w') = urls_revoked (browser w)
  ∨ urls_revoked (browser w') = eff_url m :: urls_revoked (browser w).
Proof.
  intros Hwf Hm. unfold run_handler. rewrite Hm.
  intros ([st' t'] & _ & Hcommit)%outcome_bind_Returned.
  destruct (cleanup_spec props w m t' Hwf Hm) as (url0 & _ & _ & _ & Hclean).
  unfold commit in Hcommit. case_decide.
  - injection Hcommit as <-. by left.
  - rewrite Hclean in Hcommit. unfold effect in Hcommit.
    apply outcome_bind_Returned in Hcommit as ([url b] & Hurl & Heff).
    destruct (_ ≫= _) in Hurl; [|done]. injection Hurl as <- <-.
    simpl in Heff. destruct (pause st'); injection Heff as <-; by right.
Qed.

Lemma mount_revoked fuel b w :
  mount random props fuel b = Returned w →
  urls_revoked (browser w) = urls_revoked b.
Proof.
  unfold mount.
  intros ([order t] & Hgen & Hrest)%outcome_bind_Returned.
  apply outcome_bind_Returned in Hrest as ([url b1] & Hurl & Heff).
  destruct (imageFiles props !! 0); [|done]. injection Hurl as <- <-.
  unfold effect in Heff.
  apply outcome_bind_Returned in Heff as ([url1 b2] & Hurl1 & Heff).
  destruct (_ ≫= _) in Hurl1; [|done]. injection Hurl1 as <- <-.
  simpl in Heff. by injection Heff as <-.
Qed.

(** [URL.revokeObjectURL] is never called twice on the same URL: each
    cleanup revokes the URL of its own effect run, and runs once. *)
Theorem no_url_revoked_twice w :
  reachable random props w → NoDup (urls_revoked (browser w)).
Proof.
  induction 1 as [fuel t0 w Hmount|fuel w e w' Hreach IH Hstep].
  - apply mount_revoked in Hmount as ->. constructor.
  - pose proof (wf_of _ Hreach) as Hwf.
    destruct (practice w) as [m|] eqn:Hm.
    2: { rewrite step_unmounted in Hstep by done. congruence. }
    assert (Hnew : eff_url m ∉ urls_revoked (browser w)).
    { destruct Hwf as [_ Hwf]. rewrite Hm in Hwf.
      by destruct Hwf as (_ & _ & _ & ? & _). }
    assert (urls_revoked (browser w') = urls_revoked (browser w)
            ∨ urls_revoked (browser w')
              = eff_url m :: urls_revoked (browser w)) as [->| ->];
      [|done|by constructor].
    destruct (step_cases fuel w m e Hwf Hm)
      as [Heq|[Heq|(h & cl & _ & Heq)]]; rewrite Heq in Hstep.
    + injection Hstep as <-. right. unfold unmount. rewrite Hm.
      destruct (cleanup_spec props w m (random_calls (browser w)) Hwf Hm)
        as (url0 & _ & _ & _ & Hclean).
      rewrite set_random_calls_id in Hclean. cbn [browser].
      by rewrite Hclean.
    + injection Hstep as <-. by left.
    + by eapply run_handler_revoked.
Qed.

End SessionFacts.

(** Without any image, mounting throws: the generator returns the empty
    order, and the initial state hands [undefined] to
    [URL.createObjectURL]. *)
Theorem mount_without_images_throws random props fuel b :
  imageFiles props = [] →
  mount random props fuel b = Thrown "TypeError".
Proof.
  intros Hfiles. unfold mount. rewrite Hfiles. simpl length.
  assert (generateRandomOrder fuel random (random_calls b) 0
          = Returned ([], random_calls b)) as -> by by destruct fuel.
  done.
Qed.

(** ** The folder scan and the settings page *)




Lemma foldl_sizes files : ∀ n,
  foldl (λ sum file, sum + file_size file) n files
  = n + sum_list (file_size <$> files).
Proof.
  induction files as [|file files IH]; intros n; [simpl; lia|].
  rewrite fmap_cons. cbn [foldl sum_list sum_list_with]. rewrite IH.
  unfold id. lia.
Qed.

Lemma updateFolderData_consistent dirHandle p p' :
  Settings.consistent (Settings.app p) →
  Settings.updateFolderData dirHandle p = Resolves p' →
  Settings.consistent (Settings.app p').
Proof.
  intros Hp. unfold Settings.updateFolderData.
  destruct (FileScanner dirHandle) as [files|name] eqn:Hscan; [|done].
  destruct (Nat.eqb_spec (length files) 0) as [Hnil|Hfiles];
    intros [= <-]; [done|].
  unfold Settings.consistent. simpl. split_and!; try done.
  - by destruct files.
  - by rewrite foldl_sizes.
Qed.

Lemma step_consistent p e :
  Settings.consistent (Settings.app p) →
  Settings.consistent (Settings.app (Settings.step p e)).
Proof.
  intros Hp. destruct e as [supported picker save|found|preferences|]; simpl.
  - unfold Settings.handleFolderSelect. destruct supported; [|done]. simpl.
    assert (∀ q name, Settings.consistent (Settings.app q) →
      Settings.consistent (Settings.app
        (if decide (name ≠ "AbortError")
         then Settings.alert "An error occurred while selecting the folder" q
         else q))) as Hcatch.
    { intros q name Hq. by case_decide. }
    destruct picker as [dirHandle|name]; [|by apply Hcatch].
    destruct (Settings.updateFolderData dirHandle p) as [p1|name] eqn:Hupdate;
      [|by apply Hcatch].
    apply updateFolderData_consistent in Hupdate; [|done].
    destruct save as [[]|name]; simpl; [done|by apply Hcatch].
  - unfold Settings.restoreLastFolder.
    destruct found as [[handle|]|name]; try done.
    destruct (Settings.updateFolderData handle p) as [p1|name] eqn:Hupdate;
      [|done].
    by eapply updateFolderData_consistent.
  - unfold Settings.runApp.
    destruct (App.selectedFolder (Settings.app p)) as [folder|] eqn:Hfolder;
      [|done].
    unfold Settings.consistent in *. rewrite Hfolder in Hp.
    destruct (Settings.fixedTime preferences),
      (Settings.customFixedTime preferences); simpl; by rewrite Hfolder.
  - unfold Settings.consistent in *. simpl.
    destruct (App.selectedFolder (Settings.app p)); [done|].
    by destruct Hp.
Qed.

Lemma foldl_consistent events : ∀ p,
  Settings.consistent (Settings.app p) →
  Settings.consistent (Settings.app (foldl Settings.step p events)).
Proof.
  induction events as [|e events IH]; intros p Hp; [done|].
  simpl. by apply IH, step_consistent.
Qed.

(** Whatever is clicked and however the folder handlers end, the folder
    on show and the files belong together: with no folder there are no
    files and nothing runs; with a folder, the files are those its scan
    returned, at least one, and the folder records their number and the
    sum of their sizes. *)
Theorem settings_consistent events :
  Settings.consistent (Settings.app (Settings.run events)).
Proof.
  apply foldl_consistent. by split.
Qed.

(** [App] renders [Practice] only with the files of a folder that was
    scanned, and so with at least one file. *)
Theorem practice_gets_images events fixedTime files :
  App.render (Settings.app (Settings.run events))
    = App.PracticePage fixedTime files →
  files ≠ []
  ∧ ∃ folder,
      App.selectedFolder (Settings.app (Settings.run events)) = Some folder
      ∧ FileScanner (App.dirHandle folder) = Resolves files.
Proof.
  pose proof (foldl_consistent events Settings.initial ltac:(by split)) as Hc.
  fold (Settings.run events) in Hc. unfold App.render, Settings.consistent in *.
  destruct (App.runApp _); [|done].
  destruct (App.selectedFolder _) as [folder|]; [|done].
  destruct Hc as (Hfiles & _ & _ & Hscan).
  destruct (App.sessionType _); try done. intros [= _ <-]. eauto.
Qed.

(** Picking a folder without images changes neither the folder on show
    nor the files: the page shows an alert, and the folder is handed to
    [saveLastFolder] all the same. *)
Theorem folder_without_images dirHandle p :
  FileScanner dirHandle = Resolves [] →
  Settings.handleFolderSelect true (Resolves dirHandle) (Resolves ()) p
  = {| Settings.app := Settings.app p;
       Settings.alerts := "No image files found in the selected folder"
                          :: Settings.alerts p;
       Settings.saved := dirHandle :: Settings.saved p |}.
Proof.
  intros Hscan.
  unfold Settings.handleFolderSelect, Settings.updateFolderData.
  by rewrite Hscan.
Qed.

(** ** The further properties on concrete inputs *)

Lemma world3_overlay_reachable : reachable rnd_zero props3 world3_overlay.
Proof.
  apply (run_reachable rnd_zero props3 0 [ClickImage] world3);
    [apply world3_reachable | by vm_compute].
Qed.


Lemma generateRandomOrder_small_witness :
  in_unit_interval rnd_cycle ∧ 1 ≤ 99 ∧ 99 < 100
  ∧ ∃ l, generateRandomOrder 0 rnd_cycle 7 99 = Returned (l, 7 + Nat.min 50 99)
      ∧ length l = Nat.min 50 99.
Proof.
  assert (H1 : in_unit_interval rnd_cycle) by apply rnd_cycle_in_unit_interval.
  assert (H2 : 1 ≤ 99) by lia.
  assert (H3 : 99 < 100) by lia.
  refine (conj H1 (conj H2 (conj H3 _))).
  exact (generateRandomOrder_small rnd_cycle 0 7 99 H1 H2 H3).
Defined.

Lemma generateRandomOrder_permutation_witness :
  in_unit_interval rnd_cycle ∧ 3 ≤ 50
  ∧ generateRandomOrder 0 rnd_cycle 40 3 = Returned ([1; 0; 2], 43)
  ∧ [1; 0; 2] ≡ₚ seq 0 3.
Proof.
  assert (H1 : in_unit_interval rnd_cycle) by apply rnd_cycle_in_unit_interval.
  assert (H2 : 3 ≤ 50) by lia.
  assert (H3 : generateRandomOrder 0 rnd_cycle 40 3 = Returned ([1; 0; 2], 43))
    by (vm_compute; reflexivity).
  refine (conj H1 (conj H2 (conj H3 _))).
  exact (generateRandomOrder_permutation rnd_cycle 0 40 3 _ _ H1 H2 H3).
Defined.

(** A source that repeats itself keeps the sampling loop going for ever. *)
Lemma generateRandomOrder_sampling_witness :
  100 ≤ 100 ∧ length (draws rnd_zero 100 0 1000 []) < 50
  ∧ generateRandomOrder 1000 rnd_zero 0 100 = OutOfFuel.
Proof.
  assert (H1 : 100 ≤ 100) by lia.
  assert (H2 : length (draws rnd_zero 100 0 1000 []) < 50)
    by (vm_compute; lia).
  refine (conj H1 (conj H2 _)).
  exact (proj2 (generateRandomOrder_sampling rnd_zero 1000 0 100 H1) H2).
Defined.




Lemma order_is_append_only_witness :
  reachable rnd_zero props3 world3
  ∧ practice world3 = Some (mounted_of world3)
  ∧ run rnd_zero props3 0 world3 [KeyDown "ArrowRight"; KeyDown "ArrowRight"]
    = Returned world3_last
  ∧ practice world3_last = Some (mounted_of world3_last)
  ∧ imageOrder (state (mounted_of world3))
    `prefix_of` imageOrder (state (mounted_of world3_last)).
Proof.
  assert (H1 : reachable rnd_zero props3 world3) by apply world3_reachable.
  assert (H2 : practice world3 = Some (mounted_of world3)) by reflexivity.
  assert (H3 : run rnd_zero props3 0 world3
                 [KeyDown "ArrowRight"; KeyDown "ArrowRight"]
               = Returned world3_last) by (vm_compute; reflexivity).
  assert (H4 : practice world3_last = Some (mounted_of world3_last))
    by reflexivity.
  refine (conj H1 (conj H2 (conj H3 (conj H4 _)))).
  exact (order_is_append_only rnd_zero props3 rnd_zero_in_unit_interval 0
           _ world3 world3_last _ _ H1 H2 H3 H4).
Defined.

Lemma one_listener_one_timer_witness :
  reachable rnd_zero props3 world3_last
  ∧ practice world3_last = Some (mounted_of world3_last)
  ∧ length (keydown (browser world3_last)) = 1
  ∧ length (timers (browser world3_last)) = 1.
Proof.
  assert (H1 : reachable rnd_zero props3 world3_last)
    by apply world3_last_reachable.
  assert (H2 : practice world3_last = Some (mounted_of world3_last))
    by reflexivity.
  refine (conj H1 (conj H2 _)).
  exact (one_listener_one_timer rnd_zero props3 rnd_zero_in_unit_interval
           world3_last (mounted_of world3_last) H1 H2).
Defined.

Lemma closures_never_stale_witness :
  reachable rnd_zero props3 world3_last
  ∧ practice world3_last = Some (mounted_of world3_last)
  ∧ Forall (λ registered,
              agrees registered.2 (state (mounted_of world3_last)))
      (keydown (browser world3_last) ++ timers (browser world3_last)).
Proof.
  assert (H1 : reachable rnd_zero props3 world3_last)
    by apply world3_last_reachable.
  assert (H2 : practice world3_last = Some (mounted_of world3_last))
    by reflexivity.
  refine (conj H1 (conj H2 _)).
  exact (closures_never_stale rnd_zero props3 rnd_zero_in_unit_interval
           world3_last (mounted_of world3_last) H1 H2).
Defined.


Lemma mount_returns_witness :
  in_unit_interval rnd_zero ∧ imageFiles props3 ≠ []
  ∧ enough_draws rnd_zero (random_calls (new_page 0)) 3 0
  ∧ ∃ w m, mount rnd_zero props3 0 (new_page 0) = Returned w
      ∧ practice w = Some m
      ∧ orderIndex (state m) = 0 ∧ counter (state m) = 0
      ∧ pause (state m) = false
      ∧ length (imageOrder (state m)) = Nat.min 50 3.
Proof.
  assert (H1 : in_unit_interval rnd_zero) by apply rnd_zero_in_unit_interval.
  assert (H2 : imageFiles props3 ≠ []) by discriminate.
  assert (H3 : enough_draws rnd_zero (random_calls (new_page 0)) 3 0).
  { left. vm_compute. reflexivity. }
  refine (conj H1 (conj H2 (conj H3 _))).
  exact (mount_returns rnd_zero props3 H1 0 (new_page 0) H2 H3).
Defined.

Lemma mount_without_images_throws_witness :
  imageFiles {| timeMS := 30000; imageFiles := []; buttons_bubble := true |}
    = []
  ∧ mount rnd_zero
      {| timeMS := 30000; imageFiles := []; buttons_bubble := true |}
      0 (new_page 0)
    = Thrown "TypeError".
Proof.
  assert (H1 : imageFiles {| timeMS := 30000; imageFiles := [];
                             buttons_bubble := true |} = []) by reflexivity.
  refine (conj H1 _).
  exact (mount_without_images_throws rnd_zero _ 0 (new_page 0) H1).
Defined.

Lemma mute_button_only_mutes_witness :
  reachable rnd_zero props3 world3_overlay
  ∧ practice world3_overlay = Some (mounted_of world3_overlay)
  ∧ showOverlay (state (mounted_of world3_overlay)) = true
  ∧ ∃ w' m',
      step rnd_zero props3 0 world3_overlay (ClickButton ButtonMute)
        = Returned w'
      ∧ practice w' = Some m'
      ∧ browser w' = browser world3_overlay
      ∧ mute (state m') = true.
Proof.
  assert (H1 : reachable rnd_zero props3 world3_overlay)
    by apply world3_overlay_reachable.
  assert (H2 : practice world3_overlay = Some (mounted_of world3_overlay))
    by reflexivity.
  assert (H3 : showOverlay (state (mounted_of world3_overlay)) = true)
    by reflexivity.
  refine (conj H1 (conj H2 (conj H3 _))).
  destruct (mute_button_only_mutes rnd_zero props3 rnd_zero_in_unit_interval
              0 world3_overlay (mounted_of world3_overlay) H1 H2 H3)
    as (w' & m' & Hstep & Hm' & Hb & Hmute & _).
  exists w', m'. split_and!; done.
Defined.


Lemma forward_then_back_witness :
  reachable rnd_zero props3 world3_last
  ∧ practice world3_last = Some (mounted_of world3_last)
  ∧ enough_draws rnd_zero (random_calls (browser world3_last)) 3 0
  ∧ ∃ w' m',
      run rnd_zero props3 0 world3_last
        [KeyDown "ArrowRight"; KeyDown "ArrowLeft"] = Returned w'
      ∧ practice w' = Some m'
      ∧ orderIndex (state m') = 2
      ∧ imageOrder (state m') !! orderIndex (state m') = Some 2
      ∧ counter (state m') = 0.
Proof.
  assert (H1 : reachable rnd_zero props3 world3_last)
    by apply world3_last_reachable.
  assert (H2 : practice world3_last = Some (mounted_of world3_last))
    by reflexivity.
  assert (H3 : enough_draws rnd_zero (random_calls (browser world3_last)) 3 0).
  { left. vm_compute. reflexivity. }
  refine (conj H1 (conj H2 (conj H3 _))).
  exact (forward_then_back rnd_zero props3 rnd_zero_in_unit_interval 0
           world3_last (mounted_of world3_last) H1 H2 (λ _, H3)).
Defined.

Lemma arrow_right_n_times_witness :
  length (imageFiles props3) < 100
  ∧ reachable rnd_zero props3 world3
  ∧ practice world3 = Some (mounted_of world3)
  ∧ ∃ w' m',
      run rnd_zero props3 0 world3 (repeat (KeyDown "ArrowRight") 5)
        = Returned w'
      ∧ practice w' = Some m'
      ∧ orderIndex (state m') = 0 + 5.
Proof.
  assert (H0 : length (imageFiles props3) < 100) by (simpl; lia).
  assert (H1 : reachable rnd_zero props3 world3) by apply world3_reachable.
  assert (H2 : practice world3 = Some (mounted_of world3)) by reflexivity.
  refine (conj H0 (conj H1 (conj H2 _))).
  exact (arrow_right_n_times rnd_zero props3 rnd_zero_in_unit_interval 0 5
           world3 (mounted_of world3) H0 H1 H2).
Defined.


Lemma no_url_revoked_twice_witness :
  reachable rnd_zero props3 world3_last
  ∧ NoDup (urls_revoked (browser world3_last)).
Proof.
  assert (H1 : reachable rnd_zero props3 world3_last)
    by apply world3_last_reachable.
  refine (conj H1 _).
  exact (no_url_revoked_twice rnd_zero props3 rnd_zero_in_unit_interval
           world3_last H1).
Defined.


Lemma practice_gets_images_witness :
  App.render (Settings.app (Settings.run pick_and_start))
    = App.PracticePage App.ThirtySeconds
        [ {| file_name := "a.png"; file_size := 1 |};
          {| file_name := "b.jpg"; file_size := 2 |} ]
  ∧ [ {| file_name := "a.png"; file_size := 1 |};
      {| file_name := "b.jpg"; file_size := 2 |} ] ≠ [].
Proof.
  assert (H1 : App.render (Settings.app (Settings.run pick_and_start))
               = App.PracticePage App.ThirtySeconds
                   [ {| file_name := "a.png"; file_size := 1 |};
                     {| file_name := "b.jpg"; file_size := 2 |} ])
    by (vm_compute; reflexivity).
  refine (conj H1 _).
  exact (proj1 (practice_gets_images pick_and_start _ _ H1)).
Defined.

Lemma folder_without_images_witness :
  FileScanner papers = Resolves []
  ∧ Settings.handleFolderSelect true (Resolves papers) (Resolves ())
      (Settings.run pick_and_start)
    = {| Settings.app := Settings.app (Settings.run pick_and_start);
         Settings.alerts :=
           "No image files found in the selected folder"
           :: Settings.alerts (Settings.run pick_and_start);
         Settings.saved :=
           papers :: Settings.saved (Settings.run pick_and_start) |}.
Proof.
  assert (H1 : FileScanner papers = Resolves []) by reflexivity.
  refine (conj H1 _).
  exact (folder_without_images papers (Settings.run pick_and_start) H1).
Defined.
